(** * bulwark.decorators: check decorators for functions that handle dataframes

    A shallow embedding of [src/bulwark/decorators.py] and the properties of
    its wrapper-construction engine: [BaseDecorator] (the generic wrapper with
    its three ways of locating the checked value), [decorator_factory] and the
    module-level registration loop, and the hand-written [CustomCheck].

    Python objects are values of [pyval]; function objects live in a store and
    values refer to them ([VFunc]).  A call of the wrapped function is a
    computation in [M]: it yields the list of calls made to the target and to
    the check, in order, and either a returned value or a raised exception. *)

From Stdlib Require Import Ascii String.
From stdpp Require Import gmap strings list fin_maps.

#[local] Set Warnings "-register-all".
Open Scope string_scope.
Open Scope list_scope.

(** ** Python values *)

Inductive pytype :=
  | T_NoneType | T_bool | T_int | T_str | T_tuple | T_list | T_dict
  | T_function
  | T_class (name : string).

Global Instance pytype_eq_dec : EqDecision pytype.
Proof. solve_decision. Defined.

(** [VInst cls n] is an instance of any other class (a DataFrame, a float, a
    named tuple, ...): [cls] is the class, [n] tells instances apart. *)
Inductive pyval :=
  | VNone
  | VBool (b : bool)
  | VInt (n : Z)
  | VStr (s : string)
  | VTuple (items : list pyval)
  | VList (items : list pyval)
  | VDict (items : list (pyval * pyval))
  | VFunc (ref : nat)
  | VInst (cls : string) (n : Z).

(** [type(v)] *)
Definition type_of (v : pyval) : pytype :=
  match v with
  | VNone => T_NoneType
  | VBool _ => T_bool
  | VInt _ => T_int
  | VStr _ => T_str
  | VTuple _ => T_tuple
  | VList _ => T_list
  | VDict _ => T_dict
  | VFunc _ => T_function
  | VInst cls _ => T_class cls
  end.

(** [str(type(v))], as [format] prints it into a message. *)
Definition type_name (t : pytype) : string :=
  match t with
  | T_NoneType => "NoneType"
  | T_bool => "bool"
  | T_int => "int"
  | T_str => "str"
  | T_tuple => "tuple"
  | T_list => "list"
  | T_dict => "dict"
  | T_function => "function"
  | T_class name => name
  end.

Definition type_repr (t : pytype) : string :=
  "<class '" +:+ type_name t +:+ "'>".

(** [v is None] *)
Definition is_none (v : pyval) : bool :=
  match v with VNone => true | _ => false end.

(** Truth value of [v] in [if v] and [not v]; instances of other classes
    have the truth value of a plain object. *)
Definition truthy (v : pyval) : bool :=
  match v with
  | VNone => false
  | VBool b => b
  | VInt n => negb (n =? 0)%Z
  | VStr s => negb (String.eqb s EmptyString)
  | VTuple items | VList items => negb (bool_decide (items = []))
  | VDict items => negb (bool_decide (items = []))
  | VFunc _ => true
  | VInst _ _ => true
  end.

(** ** Exceptions and outcomes *)

Inductive exn :=
  | TypeError (msg : string)
  | NameError (msg : string)
  | IndexError (msg : string)
  | KeyError (key : string)
  | AttributeError (attr : string)
  | AssertionError (msg : string)
  | OtherError (cls msg : string).

Inductive outcome (A : Type) :=
  | Ret (a : A)
  | Raise (e : exn).
Arguments Ret {A} a.
Arguments Raise {A} e.

Definition is_raise {A} (o : outcome A) : Prop :=
  match o with Raise _ => True | Ret _ => False end.

(** ** Signatures ([inspect.signature]) *)

Inductive param_kind :=
  | POSITIONAL_ONLY | POSITIONAL_OR_KEYWORD | VAR_POSITIONAL
  | KEYWORD_ONLY | VAR_KEYWORD.

Global Instance param_kind_eq_dec : EqDecision param_kind.
Proof. solve_decision. Defined.

(** [p_default = None] is a parameter without a default: its [.default] is
    the marker [Parameter.empty]. *)
Record param := {
  p_name : string;
  p_kind : param_kind;
  p_default : option pyval;
}.

Definition param_names (ps : list param) : list string := p_name <$> ps.

(** [sig.parameters[name]] *)
Definition find_param (ps : list param) (name : string) : option param :=
  snd <$> list_find (λ p, p_name p = name) ps.

(** [getfullargspec(func).args]: the names of the positional parameters. *)
Definition getfullargspec_args (ps : list param) : list string :=
  p_name <$>
    (filter (λ p, p_kind p = POSITIONAL_ONLY) ps ++
     filter (λ p, p_kind p = POSITIONAL_OR_KEYWORD) ps).

(** A function object.  Calling it binds the arguments to [fn_params] and,
    when they bind, runs [fn_body] on the bound arguments. *)
Record pyfunc := {
  fn_name : string;
  fn_module : string;
  fn_params : list param;
  fn_body : gmap string pyval → outcome pyval;
}.

(** The function a decorator is applied to.  [tg_params] is what
    [signature(f)] reports and [tg_call] what [f( *args, **kwargs)] does;
    nothing else of the target is looked at. *)
Record target := {
  tg_name : string;
  tg_params : list param;
  tg_call : list pyval → gmap string pyval → outcome pyval;
}.

(** ** Binding of call arguments ([Signature.bind], [apply_defaults]) *)

Definition kwargs_dict (kwargs : gmap string pyval) : pyval :=
  VDict ((λ kv, (VStr kv.1, kv.2)) <$> map_to_list kwargs).

(** Positional arguments fill the parameters from the left; [*args] takes
    what is left.  Returns the parameters not yet looked at. *)
Fixpoint bind_positional (ps : list param) (args : list pyval)
    (kwargs acc : gmap string pyval) {struct args}
    : exn + (list param * gmap string pyval) :=
  match args with
  | [] => inr (ps, acc)
  | a :: rest =>
    match ps with
    | [] => inl (TypeError "too many positional arguments")
    | p :: ps' =>
      match p_kind p with
      | VAR_KEYWORD | KEYWORD_ONLY =>
          inl (TypeError "too many positional arguments")
      | VAR_POSITIONAL => inr (ps', <[p_name p := VTuple args]> acc)
      | POSITIONAL_ONLY =>
          bind_positional ps' rest kwargs (<[p_name p := a]> acc)
      | POSITIONAL_OR_KEYWORD =>
          if decide (is_Some (kwargs !! p_name p))
          then inl (TypeError ("multiple values for argument '" +:+ p_name p +:+ "'"))
          else bind_positional ps' rest kwargs (<[p_name p := a]> acc)
      end
    end
  end.

Definition missing_argument (p : param) : exn :=
  TypeError ("missing a required argument: '" +:+ p_name p +:+ "'").

(** Keyword arguments go to the remaining parameters by name; a
    positional-only parameter never takes one.  Returns the bound arguments,
    the keywords no parameter took, and the name of [**kwargs] if declared. *)
Fixpoint bind_keywords (ps : list param) (kwargs acc : gmap string pyval)
    (varkw : option string)
    : exn + (gmap string pyval * gmap string pyval * option string) :=
  match ps with
  | [] => inr (acc, kwargs, varkw)
  | p :: ps' =>
    match p_kind p with
    | VAR_KEYWORD => bind_keywords ps' kwargs acc (Some (p_name p))
    | VAR_POSITIONAL => bind_keywords ps' kwargs acc varkw
    | POSITIONAL_ONLY =>
        match p_default p with
        | None => inl (missing_argument p)
        | Some _ => bind_keywords ps' kwargs acc varkw
        end
    | POSITIONAL_OR_KEYWORD | KEYWORD_ONLY =>
        match kwargs !! p_name p with
        | Some v =>
            bind_keywords ps' (delete (p_name p) kwargs) (<[p_name p := v]> acc) varkw
        | None =>
            match p_default p with
            | None => inl (missing_argument p)
            | Some _ => bind_keywords ps' kwargs acc varkw
            end
        end
    end
  end.

Definition unexpected_keyword (name : string) : exn :=
  TypeError ("got an unexpected keyword argument '" +:+ name +:+ "'").

(** [sig.bind( *args, **kwargs)] *)
Definition sig_bind (ps : list param) (args : list pyval)
    (kwargs : gmap string pyval) : exn + gmap string pyval :=
  match bind_positional ps args kwargs ∅ with
  | inl e => inl e
  | inr (ps', acc) =>
    match bind_keywords ps' kwargs acc None with
    | inl e => inl e
    | inr (acc, extra, varkw) =>
      match map_to_list extra, varkw with
      | [], _ => inr acc
      | _ :: _, Some kw => inr (<[kw := kwargs_dict extra]> acc)
      | (k, _) :: _, None => inl (unexpected_keyword k)
      end
    end
  end.

(** [bound_args.apply_defaults()] *)
Definition apply_defaults (ps : list param) (bound : gmap string pyval)
    : gmap string pyval :=
  foldl (λ acc p,
    match acc !! p_name p with
    | Some _ => acc
    | None =>
      match p_default p, p_kind p with
      | Some d, _ => <[p_name p := d]> acc
      | None, VAR_POSITIONAL => <[p_name p := VTuple []]> acc
      | None, VAR_KEYWORD => <[p_name p := VDict []]> acc
      | None, _ => acc
      end
    end) bound ps.

(** The parameter [p] takes the keyword argument [k]: it is [**kwargs], or
    it is named [k] and can be passed by keyword. *)
Definition takes (p : param) (k : string) : Prop :=
  p_kind p = VAR_KEYWORD ∨
  (p_name p = k ∧ (p_kind p = POSITIONAL_OR_KEYWORD ∨ p_kind p = KEYWORD_ONLY)).

Global Instance takes_dec p k : Decision (takes p k).
Proof. unfold takes. apply _. Defined.

Definition takes_keyword (ps : list param) (k : string) : bool :=
  bool_decide (Exists (λ p, takes p k) ps).

(** A call [fn( *args, **kwargs)] of a function object. *)
Definition call_function (fn : pyfunc) (args : list pyval)
    (kwargs : gmap string pyval) : outcome pyval :=
  match sig_bind (fn_params fn) args kwargs with
  | inl e => Raise e
  | inr bound => fn_body fn (apply_defaults (fn_params fn) bound)
  end.

(** A plain function used as a target. *)
Definition target_of_function (fn : pyfunc) : target :=
  {| tg_name := fn_name fn; tg_params := fn_params fn;
     tg_call := call_function fn |}.

(** ** Calls and their trace *)

Inductive callee := Target | Check.

Global Instance callee_eq_dec : EqDecision callee.
Proof. solve_decision. Defined.

(** One call made while the wrapped function runs: who was called, with
    which arguments, and what came back. *)
Record event := Called {
  ev_callee : callee;
  ev_args : list pyval;
  ev_kwargs : gmap string pyval;
  ev_result : outcome pyval;
}.

Definition M (A : Type) : Type := list event * outcome A.

Global Instance M_ret : MRet M := λ A a, ([], Ret a).

Global Instance M_bind : MBind M := λ A B k m,
  match m with
  | (t, Ret a) => let '(t', r) := k a in (t ++ t', r)
  | (t, Raise e) => (t, Raise e)
  end.

Definition raise {A} (e : exn) : M A := ([], Raise e).

Definition lift {A} (r : exn + A) : M A :=
  match r with inl e => raise e | inr a => mret a end.

(** The calls of a computation, and whether one of them went to the target
    or to the check. *)
Definition trace {A} (m : M A) : list event := m.1.
Definition result {A} (m : M A) : outcome A := m.2.

Definition calls (who : callee) (t : list event) : list event :=
  filter (λ ev, ev_callee ev = who) t.

(** [f( *args, **kwargs)] *)
Definition call_target (f : target) (args : list pyval)
    (kwargs : gmap string pyval) : M pyval :=
  let r := tg_call f args kwargs in ([Called Target args kwargs r], r).

(** ** The argument resolver *)

(** [BaseDecorator._has_arg_name] *)
Definition _has_arg_name (arg_name : string) (func : target) : bool :=
  bool_decide (arg_name ∈ param_names (tg_params func)).

(** [BaseDecorator._get_arg_default]: [None] is the marker
    [Parameter.empty] of a parameter that declares no default. *)
Definition _get_arg_default (func : target) (arg_name : string)
    : exn + option pyval :=
  match find_param (tg_params func) arg_name with
  | Some p => inr (p_default p)
  | None => inl (KeyError arg_name)
  end.

(** The type error of a call of [_get_arg_value] in which a keyword names a
    parameter that is already filled by position. *)
Definition multiple_values (name : string) : exn :=
  TypeError ("BaseDecorator._get_arg_value() got multiple values for argument '"
             +:+ name +:+ "'").

(** [BaseDecorator._get_arg_value], as it is called:
    [self._get_arg_value(f, self._df, *args, **kwargs)].  Its own parameters
    [func] and [arg_name] are filled by position, so a keyword of the caller
    with one of these two names is a second value for that parameter and the
    call itself raises, before the body runs.  (When both keywords are there,
    Python names in the message the one the caller wrote first; the
    keywords are not ordered here and [func] is named.) *)
Definition _get_arg_value (func : target) (arg_name : string)
    (args : list pyval) (kwargs : gmap string pyval) : exn + pyval :=
  if decide (is_Some (kwargs !! "func")) then inl (multiple_values "func")
  else if decide (is_Some (kwargs !! "arg_name")) then inl (multiple_values "arg_name")
  else
    match sig_bind (tg_params func) args kwargs with
    | inl e => inl e
    | inr bound =>
      match apply_defaults (tg_params func) bound !! arg_name with
      | Some v => inr v
      | None => inl (KeyError arg_name)
      end
    end.

(** [isinstance(df_default, Parameter.empty)].  [Parameter.empty] is a class
    and the marker of "no default" is that class itself, which is not an
    instance of itself; only a default that was made by calling the class is
    one. *)
Definition isinstance_empty (df_default : option pyval) : bool :=
  match df_default with
  | None => false
  | Some (VInst cls _) => String.eqb cls "inspect._empty"
  | Some _ => false
  end.

(** [res[i]] on a tuple *)
Definition tuple_getitem (items : list pyval) (i : Z) : exn + pyval :=
  let n := Z.of_nat (length items) in
  let j := if (i <? 0)%Z then (i + n)%Z else i in
  if decide (0 ≤ j < n)%Z then
    match items !! Z.to_nat j with
    | Some x => inr x
    | None => inl (IndexError "tuple index out of range")
    end
  else inl (IndexError "tuple index out of range").

(** ** Dictionaries of attributes *)

(** [dict(pairs)]: a later pair wins over an earlier one with its key. *)
Definition dict_of (pairs : list (string * pyval)) : gmap string pyval :=
  foldl (λ d kv, <[kv.1 := kv.2]> d) ∅ pairs.

(** [d.update(other)] *)
Definition update (d other : gmap string pyval) : gmap string pyval :=
  other ∪ d.

(** ** BaseDecorator *)

(** A class made by [decorator_factory]: a subclass of [BaseDecorator] whose
    class attribute [check_func] is the check. *)
Record decorator_class := {
  cls_name : string;
  cls_check_func : pyfunc;
}.

(** An instance, with its [__dict__]. *)
Record instance := {
  inst_class : decorator_class;
  inst_dict : gmap string pyval;
}.

Definition df_allowed_types : list pytype := [T_int; T_str; T_NoneType].

(** The property [_df] *)
Definition _df (self : instance) : pyval :=
  default VNone (inst_dict self !! "df").

(** The three meanings the message of the type error lists. *)
Definition df_meanings : string :=
  "Only allowed types are:
 str:  arg name of the input argument to the decorated function to check
 int:  the entry in a tuple returned by the decorated function to check
 None: check the single dataframe return by the decorated function".

Definition df_type_msg (t : pytype) : string :=
  "'df' arg cannot by of type " +:+ type_repr t +:+ ".
" +:+ df_meanings.

(** [BaseDecorator.__init__] *)
Definition BaseDecorator_init (cls : decorator_class) (args : list pyval)
    (kwargs : gmap string pyval) : exn + instance :=
  let enabled := default (VBool true) (kwargs !! "enabled") in
  let kwargs := delete "enabled" kwargs in
  let d := <["enabled" := enabled]> ∅ in
  let params := tail (getfullargspec_args (fn_params (cls_check_func cls))) in
  let d := <["params" := VList (VStr <$> params)]> d in
  let d := update d (dict_of (zip params args)) in
  let d := update d kwargs in
  let self := {| inst_class := cls; inst_dict := d |} in
  if decide (type_of (_df self) ∈ df_allowed_types) then inr self
  else inl (TypeError (df_type_msg (type_of (_df self)))).

(** [{k: v for k, v in self.__dict__.items()
      if k not in ["check_func", "enabled", "params"]}] *)
Definition check_kwargs_of (d : gmap string pyval) : gmap string pyval :=
  filter (λ kv, kv.1 ∉ ["check_func"; "enabled"; "params"]) d.

(** [decorator_factory]: the class statement names the class
    [decorator_name] whatever the argument is; the argument only becomes the
    name of the module attribute (see [register]). *)
Definition decorator_factory (decorator_name : string) (func : pyfunc)
    : decorator_class :=
  {| cls_name := "decorator_name"; cls_check_func := func |}.

(** What a name of the module [bulwark.decorators] can be bound to by the
    registration loop and the code after it. *)
Inductive module_attr :=
  | GlobalFunction (f : pyfunc)
  | GlobalStr (s : string)
  | DecoratorClass (c : decorator_class)
  | CustomCheckClass.

(** Modelled from the spec: [bulwark.generic.snake_to_camel] is not among the
    sources; the spec calls it a conversion from snake case to capitalized
    camel case.  Underscores are dropped and the letter that starts the
    string or follows an underscore is put in upper case. *)
Definition upper (c : ascii) : ascii :=
  let n := nat_of_ascii c in
  if bool_decide (97 ≤ n ≤ 122)%nat then ascii_of_nat (n - 32) else c.

Fixpoint camel_from (cap : bool) (s : string) : string :=
  match s with
  | EmptyString => EmptyString
  | String c s' =>
      if Ascii.eqb c "_"%char then camel_from true s'
      else String (if cap then upper c else c) (camel_from false s')
  end.

Definition snake_to_camel_spec (s : string) : string := camel_from true s.

Section Decorators.

(** The function objects that values refer to. *)
Variable store : gmap nat pyfunc.

(** [bulwark.checks.custom_check], called as
    [custom_check(df, check_func, **check_func_params)]. *)
Variable custom_check : list pyval → gmap string pyval → outcome pyval.

Definition callable (v : pyval) : option pyfunc :=
  match v with VFunc ref => store !! ref | _ => None end.

Definition not_callable (v : pyval) : exn :=
  TypeError ("'" +:+ type_name (type_of v) +:+ "' object is not callable").

(** [self.check_func]: an entry of the instance's [__dict__] hides the
    class attribute. *)
Definition self_check_func (self : instance) : exn + pyfunc :=
  match inst_dict self !! "check_func" with
  | Some v =>
    match callable v with
    | Some fn => inr fn
    | None => inl (not_callable v)
    end
  | None => inr (cls_check_func (inst_class self))
  end.

(** [self.check_func( **check_kwargs)] *)
Definition call_check (self : instance) (check_kwargs : gmap string pyval)
    : M pyval :=
  fn ← lift (self_check_func self);
  let r := call_function fn [] check_kwargs in
  ([Called Check [] check_kwargs r], r).

(** [self.enabled] *)
Definition self_enabled (self : instance) : exn + pyval :=
  match inst_dict self !! "enabled" with
  | Some v => inr v
  | None => inl (AttributeError "enabled")
  end.

(** The function [decorated] that [BaseDecorator.__call__] returns. *)
Definition decorated (self : instance) (f : target) (args : list pyval)
    (kwargs : gmap string pyval) : M pyval :=
  enabled ← lift (self_enabled self);
  if negb (truthy enabled) then call_target f args kwargs
  else
    let check_kwargs := check_kwargs_of (inst_dict self) in
    match _df self with
    | VNone =>
        res ← call_target f args kwargs;
        _ ← call_check self (<["df" := res]> check_kwargs);
        mret res
    | VInt i =>
        res ← call_target f args kwargs;
        match res with
        | VTuple items =>
            x ← lift (tuple_getitem items i);
            _ ← call_check self (<["df" := x]> check_kwargs);
            mret res
        | _ =>
            raise (TypeError
              "Your function needs to return a tuple to use df=<int> in this decorator")
        end
    | VStr name =>
        df_default ← lift (_get_arg_default f name);
        df_value ← lift (_get_arg_value f name args kwargs);
        _ ← (if isinstance_empty df_default || negb (is_none df_value)
             then call_check self (<["df" := df_value]> check_kwargs)
             else mret VNone);
        res ← call_target f args kwargs;
        mret res
    | _ => mret VNone
    end.

(** [BaseDecorator.__call__] *)
Definition BaseDecorator_call (self : instance) (f : target)
    : exn + (list pyval → gmap string pyval → M pyval) :=
  match _df self with
  | VStr name =>
      if negb (_has_arg_name name f)
      then inl (NameError
             ("'" +:+ name +:+ "' is not an arg to function '" +:+ tg_name f +:+ "'"))
      else inr (decorated self f)
  | _ => inr (decorated self f)
  end.

(** ** CustomCheck *)

Record custom_instance := {
  cc_enabled : pyval;
  cc_check_func : pyval;
  cc_check_func_params : gmap string pyval;
}.

(** [getfullargspec(v).args] of a value *)
Definition getfullargspec_of (v : pyval) : exn + list string :=
  match callable v with
  | Some fn => inr (getfullargspec_args (fn_params fn))
  | None => inl (TypeError "unsupported callable")
  end.

(** [CustomCheck.__init__] *)
Definition CustomCheck_init (args : list pyval) (kwargs : gmap string pyval)
    : exn + custom_instance :=
  let enabled := default (VBool true) (kwargs !! "enabled") in
  let kwargs := delete "enabled" kwargs in
  let check_func := default VNone (kwargs !! "check_func") in
  match
    (if truthy check_func then inr (check_func, args)
     else match args with
          | [] => inl (IndexError "tuple index out of range")
          | a :: rest => inr (a, rest)
          end)
  with
  | inl e => inl e
  | inr (check_func, check_func_args) =>
    match getfullargspec_of check_func with
    | inl e => inl e
    | inr names =>
        let check_func_params := dict_of (zip (tail names) check_func_args) in
        inr {| cc_enabled := enabled;
               cc_check_func := check_func;
               cc_check_func_params := update check_func_params kwargs |}
    end
  end.

(** [ck.custom_check(df, self.check_func, **self.check_func_params)] *)
Definition call_custom_check (self : custom_instance) (df : pyval) : M pyval :=
  let args := [df; cc_check_func self] in
  let r := custom_check args (cc_check_func_params self) in
  ([Called Check args (cc_check_func_params self) r], r).

(** The function [decorated] that [CustomCheck.__call__] returns. *)
Definition CustomCheck_decorated (self : custom_instance) (f : target)
    (args : list pyval) (kwargs : gmap string pyval) : M pyval :=
  df ← call_target f args kwargs;
  _ ← (if truthy (cc_enabled self) then call_custom_check self df
       else mret VNone);
  mret df.

(** [CustomCheck.__call__] *)
Definition CustomCheck_call (self : custom_instance) (f : target)
    : list pyval → gmap string pyval → M pyval :=
  CustomCheck_decorated self f.

(** ** Both kinds of decorator *)

(** An instance of a generated decorator or of [CustomCheck]. *)
Inductive wrapper :=
  | Generated (self : instance)
  | Custom (self : custom_instance).

(** [self.enabled] *)
Definition wrapper_enabled (w : wrapper) : exn + pyval :=
  match w with
  | Generated self => self_enabled self
  | Custom self => inr (cc_enabled self)
  end.

(** [w(f)] *)
Definition wrap (w : wrapper) (f : target)
    : exn + (list pyval → gmap string pyval → M pyval) :=
  match w with
  | Generated self => BaseDecorator_call self f
  | Custom self => inr (CustomCheck_call self f)
  end.

(** The locator of a generated decorator is None, an integer or a string;
    [CustomCheck] has no locator. *)
Definition locator_mode (w : wrapper) : Prop :=
  match w with
  | Generated self => type_of (_df self) ∈ df_allowed_types
  | Custom _ => True
  end.

(** ** The registry *)

(** [bulwark.generic.snake_to_camel] *)
Variable snake_to_camel : string → string.

(** [getmembers(ck)]: the attributes of the module [bulwark.checks] with
    their values, sorted by name. *)
Variable ck_members : list (string * pyval).

(** [[func[1] for func in getmembers(ck, isfunction)
      if func[1].__module__ == 'bulwark.checks']] *)
Definition check_functions : list pyfunc :=
  omap (λ member : string * pyval,
    match callable member.2 with
    | Some func =>
        if decide (fn_module func = "bulwark.checks") then Some func else None
    | None => None
    end) ck_members.

(** One turn of the loop [for func in check_functions]; the loop runs at
    module level, so [func] and [decorator_name] are names of the module
    too. *)
Definition register (globals : gmap string module_attr) (func : pyfunc)
    : gmap string module_attr :=
  let globals := <["func" := GlobalFunction func]> globals in
  let decorator_name := snake_to_camel (fn_name func) in
  let globals := <["decorator_name" := GlobalStr decorator_name]> globals in
  <[decorator_name := DecoratorClass (decorator_factory decorator_name func)]> globals.

(** The module from the loop to its end: the loop, then the statement
    [class CustomCheck]. *)
Definition module_body (globals : gmap string module_attr)
    : gmap string module_attr :=
  <["CustomCheck" := CustomCheckClass]> (foldl register globals check_functions).

End Decorators.

(** ** Construction, read from the arguments *)

(** The locator a construction is given: the keyword [df] if there is one,
    else the positional value that falls on a parameter of the check named
    [df], else nothing, which reads as None. *)
Definition configured_locator (cls : decorator_class) (args : list pyval)
    (kwargs : gmap string pyval) : pyval :=
  let params := tail (getfullargspec_args (fn_params (cls_check_func cls))) in
  match kwargs !! "df" with
  | Some v => v
  | None =>
    match last (filter (λ kv : string * pyval, kv.1 = "df") (zip params args)) with
    | Some kv => kv.2
    | None => VNone
    end
  end.

(** The [__dict__] that [__init__] builds before it looks at the locator. *)
Definition init_dict (cls : decorator_class) (args : list pyval)
    (kwargs : gmap string pyval) : gmap string pyval :=
  let params := tail (getfullargspec_args (fn_params (cls_check_func cls))) in
  update
    (update
      (<["params" := VList (VStr <$> params)]>
        (<["enabled" := default (VBool true) (kwargs !! "enabled")]> ∅))
      (dict_of (zip params args)))
    (delete "enabled" kwargs).

(** ** Functions and decorators of the examples *)

Definition required (name : string) : param :=
  {| p_name := name; p_kind := POSITIONAL_OR_KEYWORD; p_default := None |}.

Definition optional (name : string) (d : pyval) : param :=
  {| p_name := name; p_kind := POSITIONAL_OR_KEYWORD; p_default := Some d |}.

(** [def always_raises(df): raise AssertionError("always")] *)
Definition always_raises : pyfunc :=
  {| fn_name := "always_raises"; fn_module := "bulwark.checks";
     fn_params := [required "df"];
     fn_body := λ _, Raise (AssertionError "always") |}.

(** [def non_negative(df, strict=False)]: raises unless [df] is an integer
    that is not negative (positive when [strict]). *)
Definition non_negative : pyfunc :=
  {| fn_name := "non_negative"; fn_module := "bulwark.checks";
     fn_params := [required "df"; optional "strict" (VBool false)];
     fn_body := λ bound,
       match bound !! "df", bound !! "strict" with
       | Some (VInt n), Some strict =>
           if (if truthy strict then 0 <? n else 0 <=? n)%Z then Ret VNone
           else Raise (AssertionError "negative")
       | _, _ => Raise (AssertionError "not an integer")
       end |}.

Definition AlwaysRaises : decorator_class :=
  decorator_factory "AlwaysRaises" always_raises.

Definition NonNegative : decorator_class :=
  decorator_factory "NonNegative" non_negative.

(** [def f(x): return x] *)
Definition f_required : target :=
  target_of_function
    {| fn_name := "f"; fn_module := "__main__";
       fn_params := [required "x"];
       fn_body := λ bound, Ret (default VNone (bound !! "x")) |}.

(** [def f(x=None): return x] *)
Definition f_optional : target :=
  target_of_function
    {| fn_name := "f"; fn_module := "__main__";
       fn_params := [optional "x" VNone];
       fn_body := λ bound, Ret (default VNone (bound !! "x")) |}.

(** [def pair(x): return (x, 7)] *)
Definition f_pair : target :=
  target_of_function
    {| fn_name := "pair"; fn_module := "__main__";
       fn_params := [required "x"];
       fn_body := λ bound, Ret (VTuple [default VNone (bound !! "x"); VInt 7]) |}.

(** [AlwaysRaises(enabled=False)] and [AlwaysRaises()] *)
Definition always_raises_disabled : instance :=
  {| inst_class := AlwaysRaises;
     inst_dict := init_dict AlwaysRaises [] {[ "enabled" := VBool false ]} |}.

Definition always_raises_enabled : instance :=
  {| inst_class := AlwaysRaises; inst_dict := init_dict AlwaysRaises [] ∅ |}.

(** [NonNegative()], [NonNegative(df=0)] and [NonNegative(df="x")] *)
Definition non_negative_result : instance :=
  {| inst_class := NonNegative; inst_dict := init_dict NonNegative [] ∅ |}.

Definition non_negative_item (i : Z) : instance :=
  {| inst_class := NonNegative;
     inst_dict := init_dict NonNegative [] {[ "df" := VInt i ]} |}.


(** [AlwaysRaises(df="x")] *)
Definition always_raises_arg (name : string) : instance :=
  {| inst_class := AlwaysRaises;
     inst_dict := init_dict AlwaysRaises [] {[ "df" := VStr name ]} |}.

(** A [custom_check] that accepts everything. *)
Definition custom_check_passes : list pyval → gmap string pyval → outcome pyval :=
  λ _ _, Ret VNone.

(** [def at_least(minimum, df)]: raises unless [df] is an integer that is not
    below [minimum].  The data is the second parameter of this check. *)
Definition at_least : pyfunc :=
  {| fn_name := "at_least"; fn_module := "bulwark.checks";
     fn_params := [required "minimum"; required "df"];
     fn_body := λ bound,
       match bound !! "minimum", bound !! "df" with
       | Some (VInt lo), Some (VInt n) =>
           if (lo <=? n)%Z then Ret VNone else Raise (AssertionError "too small")
       | _, _ => Raise (AssertionError "not an integer")
       end |}.

Definition AtLeast : decorator_class := decorator_factory "AtLeast" at_least.

(** [AtLeast(minimum=3)] *)
Definition at_least_three : instance :=
  {| inst_class := AtLeast;
     inst_dict := init_dict AtLeast [] {[ "minimum" := VInt 3 ]} |}.

(** [def first_item(frame)]: a check whose only parameter is not [df]. *)
Definition first_item : pyfunc :=
  {| fn_name := "first_item"; fn_module := "bulwark.checks";
     fn_params := [required "frame"];
     fn_body := λ _, Ret VNone |}.

Definition first_item_result : instance :=
  {| inst_class := decorator_factory "FirstItem" first_item;
     inst_dict := init_dict (decorator_factory "FirstItem" first_item) [] ∅ |}.

(** A store with the check [non_negative] at reference 0. *)
Definition check_store : gmap nat pyfunc := {[ 0%nat := non_negative ]}.

(** Modelled from the spec: [bulwark.checks.custom_check] is not among the
    sources; [CustomCheck] calls it as
    [custom_check(df, check_func, **check_func_params)], and the registration
    loop finds it in [bulwark.checks] like any other check. *)
Definition custom_check_function : pyfunc :=
  {| fn_name := "custom_check"; fn_module := "bulwark.checks";
     fn_params :=
       [required "df"; required "check_func";
        {| p_name := "kwargs"; p_kind := VAR_KEYWORD; p_default := None |}];
     fn_body := λ _, Ret VNone |}.

(** A library with two checks of its own and a function it only imports,
    [def snake_to_camel(snake_str)] of [bulwark.generic]. *)
Definition library_store : gmap nat pyfunc :=
  {[ 0%nat := non_negative;
     1%nat := custom_check_function;
     2%nat := {| fn_name := "snake_to_camel"; fn_module := "bulwark.generic";
                 fn_params := [required "snake_str"];
                 fn_body := λ _, Ret VNone |} ]}.

Definition library_members : list (string * pyval) :=
  [("custom_check", VFunc 1); ("non_negative", VFunc 0);
   ("np", VInst "module" 0); ("snake_to_camel", VFunc 2)].

(** ** Parameters and their arguments *)

(** A parameter that a keyword can name. *)
Definition by_keyword (p : param) : Prop :=
  p_kind p = POSITIONAL_OR_KEYWORD ∨ p_kind p = KEYWORD_ONLY.

(** A parameter that a positional argument can fill. *)
Definition by_position (p : param) : Prop :=
  p_kind p = POSITIONAL_ONLY ∨ p_kind p = POSITIONAL_OR_KEYWORD.

(** A parameter is covered by bound arguments when it has a value there, or
    a default, or is [*args] or [**kwargs]. *)
Definition covered (p : param) (bound : gmap string pyval) : Prop :=
  is_Some (bound !! p_name p) ∨ is_Some (p_default p) ∨
  p_kind p = VAR_POSITIONAL ∨ p_kind p = VAR_KEYWORD.

(** [def scale(x, factor=2, *rest, unit="m", **options): return x] *)
Definition f_scale : target :=
  target_of_function
    {| fn_name := "scale"; fn_module := "__main__";
       fn_params :=
         [required "x"; optional "factor" (VInt 2);
          {| p_name := "rest"; p_kind := VAR_POSITIONAL; p_default := None |};
          {| p_name := "unit"; p_kind := KEYWORD_ONLY; p_default := Some (VStr "m") |};
          {| p_name := "options"; p_kind := VAR_KEYWORD; p_default := None |}];
       fn_body := λ bound, Ret (default VNone (bound !! "x")) |}.




(** * Properties *)

(** ** Dictionaries *)

Lemma foldl_insert_lookup (pairs : list (string * pyval)) (d : gmap string pyval) k :
  foldl (λ d kv, <[kv.1 := kv.2]> d) d pairs !! k =
  match last (filter (λ kv, kv.1 = k) pairs) with
  | Some kv => Some kv.2
  | None => d !! k
  end.
Proof.
  revert d. induction pairs as [|[k' v] pairs IH]; intros d; simpl; [done|].
  rewrite IH. rewrite filter_cons. simpl.
  destruct (decide (k' = k)) as [->|Hne].
  - rewrite last_cons.
    destruct (last (filter _ pairs)); [done|]. by rewrite lookup_insert_eq.
  - destruct (last (filter _ pairs)); [done|]. by rewrite lookup_insert_ne.
Qed.

(** A dictionary made from pairs maps a key to the value of the last pair
    with that key. *)
Lemma dict_of_lookup (pairs : list (string * pyval)) k :
  dict_of pairs !! k = snd <$> last (filter (λ kv, kv.1 = k) pairs).
Proof.
  unfold dict_of. rewrite foldl_insert_lookup, lookup_empty.
  by destruct (last _).
Qed.

Lemma update_lookup (d other : gmap string pyval) k :
  update d other !! k =
  match other !! k with Some v => Some v | None => d !! k end.
Proof.
  unfold update. rewrite lookup_union. by destruct (other !! k), (d !! k).
Qed.

Lemma check_kwargs_of_lookup (d : gmap string pyval) k :
  check_kwargs_of d !! k =
  if decide (k ∈ ["check_func"; "enabled"; "params"]) then None else d !! k.
Proof.
  unfold check_kwargs_of. case_decide as Hk.
  - apply map_lookup_filter_None. right. intros v _ Hn. by apply Hn.
  - destruct (d !! k) as [v|] eqn:Hd.
    + by apply map_lookup_filter_Some.
    + apply map_lookup_filter_None. by left.
Qed.

(** ** Construction of a generated decorator *)

Lemma init_inv cls args kwargs self :
  BaseDecorator_init cls args kwargs = inr self →
  inst_class self = cls ∧ inst_dict self = init_dict cls args kwargs ∧
  type_of (_df self) ∈ df_allowed_types.
Proof.
  unfold BaseDecorator_init. case_decide as Ht; [|done].
  intros [= <-]. done.
Qed.

Lemma init_dict_df cls args kwargs :
  default VNone (init_dict cls args kwargs !! "df") = configured_locator cls args kwargs.
Proof.
  unfold init_dict, configured_locator.
  rewrite !update_lookup, lookup_delete_ne by done.
  destruct (kwargs !! "df") as [v|]; [done|].
  rewrite dict_of_lookup.
  destruct (last _) as [kv|]; [done|]. simpl.
  by rewrite lookup_insert_ne, lookup_insert_ne, lookup_empty.
Qed.

Lemma init_dict_enabled cls args kwargs :
  is_Some (init_dict cls args kwargs !! "enabled").
Proof.
  unfold init_dict. rewrite !update_lookup.
  destruct (delete _ _ !! _); [by eexists|].
  destruct (dict_of _ !! _); [by eexists|].
  rewrite lookup_insert_ne, lookup_insert_eq by done. by eexists.
Qed.




(** Unless a positional argument falls on a parameter of the check that is
    itself named [enabled], the instance is enabled as the keyword says, and
    enabled when there is no such keyword. *)
Lemma init_enabled cls args kwargs self :
  BaseDecorator_init cls args kwargs = inr self →
  "enabled" ∉ (zip (tail (getfullargspec_args (fn_params (cls_check_func cls))))
                   args).*1 →
  self_enabled self = inr (default (VBool true) (kwargs !! "enabled")).
Proof.
  intros (_ & Hdict & _)%init_inv Hpos. unfold self_enabled. rewrite Hdict.
  unfold init_dict. rewrite !update_lookup, lookup_delete_eq, dict_of_lookup.
  destruct (last _) as [[k x]|] eqn:Hlast; simpl.
  - exfalso. apply Hpos.
    apply last_Some_elem_of, list_elem_of_filter in Hlast as [Hk Hin].
    simpl in Hk. subst k. apply list_elem_of_fmap. by exists ("enabled", x).
  - by rewrite lookup_insert_ne, lookup_insert_eq.
Qed.

(** ** Applying a decorator *)

Lemma has_arg_name_spec name f :
  _has_arg_name name f = true ↔ name ∈ param_names (tg_params f).
Proof. unfold _has_arg_name. by rewrite bool_decide_eq_true. Qed.



(** ** Calls of the wrapped function *)

Ltac run :=
  unfold mbind, M_bind, mret, M_ret, lift, raise, call_target, trace, result in *;
  simpl in *.

Lemma wrap_inv store custom_check w f wrapped :
  wrap store custom_check w f = inr wrapped →
  wrapped = match w with
            | Generated self => decorated store self f
            | Custom self => CustomCheck_decorated custom_check self f
            end.
Proof.
  destruct w as [self|self]; simpl.
  - unfold BaseDecorator_call.
    destruct (_df self); try (by intros [= <-]).
    destruct (negb _); [done|]. by intros [= <-].
  - by intros [= <-].
Qed.

(** C6.  With [enabled] false, the wrapped function of either kind of
    decorator makes one call, to the target with the caller's arguments, and
    gives back what the target gave (a value or an exception); the check is
    not called. *)
Theorem C6_disabled_wrapper_bypasses_check
    store custom_check w f wrapped v args kwargs :
  wrapper_enabled w = inr v → truthy v = false →
  wrap store custom_check w f = inr wrapped →
  result (wrapped args kwargs) = tg_call f args kwargs
  ∧ trace (wrapped args kwargs) = [Called Target args kwargs (tg_call f args kwargs)]
  ∧ calls Check (trace (wrapped args kwargs)) = [].
Proof.
  intros Hen Hfalse Hwrap. apply wrap_inv in Hwrap as ->.
  assert (Hrun : (match w with
            | Generated self => decorated store self f
            | Custom self => CustomCheck_decorated custom_check self f
            end) args kwargs = call_target f args kwargs).
  { destruct w as [self|self]; simpl in Hen.
    - unfold decorated. rewrite Hen. run. by rewrite Hfalse.
    - injection Hen as Hen. unfold CustomCheck_decorated. rewrite Hen, Hfalse. run.
      by destruct (tg_call f args kwargs). }
  rewrite Hrun. done.
Qed.

Lemma C6_witness_disabled_always_raises :
  wrapper_enabled (Generated always_raises_disabled) = inr (VBool false) ∧
  truthy (VBool false) = false ∧
  result (decorated ∅ always_raises_disabled f_required [VInt 5] ∅) = Ret (VInt 5) ∧
  calls Check (trace (decorated ∅ always_raises_disabled f_required [VInt 5] ∅)) = [].
Proof.
  split; [reflexivity|]. split; [reflexivity|].
  destruct (C6_disabled_wrapper_bypasses_check ∅ custom_check_passes
              (Generated always_raises_disabled) f_required
              (decorated ∅ always_raises_disabled f_required)
              (VBool false) [VInt 5] ∅) as (Hres & _ & Hcalls);
    [reflexivity | reflexivity | reflexivity |].
  split; [exact Hres | exact Hcalls].
Defined.

(** C7.  Whenever the wrapped function of a decorator (with a locator that is
    None, an integer or a string, or a [CustomCheck]) returns a value, the
    target, called with the same arguments, returns that value. *)
Theorem C7_returned_value_is_the_targets
    store custom_check w f wrapped args kwargs r :
  locator_mode w →
  wrap store custom_check w f = inr wrapped →
  result (wrapped args kwargs) = Ret r →
  tg_call f args kwargs = Ret r.
Proof.
  intros Hmode Hwrap. apply wrap_inv in Hwrap as ->.
  destruct w as [self|self]; simpl in Hmode.
  - unfold decorated, call_check, self_enabled. run.
    destruct (inst_dict self !! "enabled") as [v|]; simpl; [|done].
    destruct (negb (truthy v)); simpl; [done|].
    destruct (_df self) eqn:Hdf; simpl in Hmode;
      try (exfalso; revert Hmode; by apply (bool_decide_unpack _)).
    + destruct (tg_call f args kwargs) as [res|e]; simpl; [|done].
      destruct (self_check_func store self); simpl; [done|].
      destruct (call_function _ _ _); simpl; [|done]. done.
    + destruct (tg_call f args kwargs) as [res|e]; simpl; [|done].
      destruct res; simpl; try done.
      destruct (tuple_getitem items n); simpl; [done|].
      destruct (self_check_func store self); simpl; [done|].
      destruct (call_function _ _ _); simpl; [|done]. done.
    + destruct (_get_arg_default f s); simpl; [done|].
      destruct (_get_arg_value f s args kwargs); simpl; [done|].
      destruct (_ || _); simpl.
      * destruct (self_check_func store self); simpl; [done|].
        destruct (call_function _ _ _); simpl; [|done].
        destruct (tg_call f args kwargs); simpl; done.
      * destruct (tg_call f args kwargs); simpl; done.
  - unfold CustomCheck_decorated, call_custom_check. run.
    destruct (tg_call f args kwargs) as [res|e]; simpl; [|done].
    destruct (truthy _); simpl; [|done].
    destruct (custom_check _ _); simpl; done.
Qed.

Lemma C7_witness_value_passes_through :
  locator_mode (Generated non_negative_result) ∧
  wrap ∅ custom_check_passes (Generated non_negative_result) f_required
    = inr (decorated ∅ non_negative_result f_required) ∧
  result (decorated ∅ non_negative_result f_required [VInt 3] ∅) = Ret (VInt 3) ∧
  tg_call f_required [VInt 3] ∅ = Ret (VInt 3).
Proof.
  assert (Hmode : locator_mode (Generated non_negative_result)).
  { by apply (bool_decide_unpack _). }
  split; [exact Hmode|]. split; [reflexivity|]. split; [reflexivity|].
  exact (C7_returned_value_is_the_targets ∅ custom_check_passes
           (Generated non_negative_result) f_required _ [VInt 3] ∅ (VInt 3)
           Hmode eq_refl eq_refl).
Defined.

(** C2.  In a call of the wrapped function of an enabled decorator in which
    the check is called and raises, the call raises that same exception.
    With a string locator the target is not called at all in that call; with
    the locator None or an integer the target was called before the check
    and had returned a value, which the caller does not get. *)
Theorem C2_failed_check_fails_the_call store self f args kwargs v ev e :
  self_enabled self = inr v → truthy v = true →
  ev ∈ trace (decorated store self f args kwargs) →
  ev_callee ev = Check → ev_result ev = Raise e →
  result (decorated store self f args kwargs) = Raise e
  ∧ match _df self with
    | VStr _ => calls Target (trace (decorated store self f args kwargs)) = []
    | VNone | VInt _ =>
        ∃ res, tg_call f args kwargs = Ret res ∧
          trace (decorated store self f args kwargs) =
            [Called Target args kwargs (Ret res); ev]
    | _ => False
    end.
Proof.
  intros Hen Htrue. unfold decorated, call_check. rewrite Hen. run.
  rewrite Htrue; simpl.
  destruct (_df self) eqn:Hdf; simpl; try (by intros ?%elem_of_nil).
  - destruct (tg_call f args kwargs) as [res|e0]; simpl.
    + destruct (self_check_func store self) as [e1|fn]; simpl.
      * intros [->|?%elem_of_nil]%elem_of_cons; done.
      * destruct (call_function fn [] _) as [c|e1] eqn:Hc; simpl;
          intros [->|[->|?%elem_of_nil]%elem_of_cons]%elem_of_cons; try done;
          simpl; intros _ [= <-]; eauto.
    + intros [->|?%elem_of_nil]%elem_of_cons; done.
  - destruct (tg_call f args kwargs) as [res|e0]; simpl.
    + destruct res; simpl; try (intros [->|?%elem_of_nil]%elem_of_cons; done).
      destruct (tuple_getitem items n); simpl;
        [intros [->|?%elem_of_nil]%elem_of_cons; done|].
      destruct (self_check_func store self) as [e1|fn]; simpl.
      * intros [->|?%elem_of_nil]%elem_of_cons; done.
      * destruct (call_function fn [] _) as [c|e1] eqn:Hc; simpl;
          intros [->|[->|?%elem_of_nil]%elem_of_cons]%elem_of_cons; try done;
          simpl; intros _ [= <-]; eauto.
    + intros [->|?%elem_of_nil]%elem_of_cons; done.
  - destruct (_get_arg_default f s); simpl; [by intros ?%elem_of_nil|].
    destruct (_get_arg_value f s args kwargs); simpl; [by intros ?%elem_of_nil|].
    destruct (_ || _); simpl.
    + destruct (self_check_func store self) as [e1|fn]; simpl;
        [by intros ?%elem_of_nil|].
      destruct (call_function fn [] _) as [c|e1] eqn:Hc; simpl.
      * destruct (tg_call f args kwargs); simpl;
          intros [->|[->|?%elem_of_nil]%elem_of_cons]%elem_of_cons; try done;
          simpl; by intros _ [=].
      * intros [->|?%elem_of_nil]%elem_of_cons; [|done].
        simpl. by intros _ [= <-].
    + destruct (tg_call f args kwargs); simpl;
        intros [->|?%elem_of_nil]%elem_of_cons; done.
Qed.

Lemma C2_witness_string_locator :
  let ev := Called Check [] {[ "df" := VInt 5 ]} (Raise (AssertionError "always")) in
  let call := decorated ∅ (always_raises_arg "x") f_required [VInt 5] ∅ in
  self_enabled (always_raises_arg "x") = inr (VBool true) ∧
  ev ∈ trace call ∧
  result call = Raise (AssertionError "always") ∧
  calls Target (trace call) = [].
Proof.
  intros ev call.
  assert (Hin : ev ∈ trace call) by apply list_elem_of_here.
  split; [reflexivity|]. split; [exact Hin|].
  exact (C2_failed_check_fails_the_call ∅ (always_raises_arg "x") f_required
           [VInt 5] ∅ (VBool true) ev (AssertionError "always")
           eq_refl eq_refl Hin eq_refl eq_refl).
Defined.

(** Indexing a tuple fails exactly when the index is out of range, counted
    from the end when it is negative. *)
Lemma tuple_getitem_spec items i :
  let n := Z.of_nat (length items) in
  match tuple_getitem items i with
  | inr x =>
      (-n ≤ i < n)%Z ∧
      items !! Z.to_nat (if (i <? 0)%Z then i + n else i)%Z = Some x
  | inl e => (i < -n ∨ n ≤ i)%Z ∧ e = IndexError "tuple index out of range"
  end.
Proof.
  intros n. unfold tuple_getitem. fold n.
  destruct (i <? 0)%Z eqn:Hneg;
    [apply Z.ltb_lt in Hneg | apply Z.ltb_ge in Hneg];
    case_decide as Hrange.
  - destruct (items !! _) eqn:Hl; [split; [lia|done]|].
    apply lookup_ge_None in Hl. lia.
  - split; [lia|done].
  - destruct (items !! _) eqn:Hl; [split; [lia|done]|].
    apply lookup_ge_None in Hl. lia.
  - split; [lia|done].
Qed.

(** C3.  The wrapped function of an enabled decorator with the integer
    locator [i] first calls the target.  If the target returns something that
    is not a tuple, a type error is raised and the check is not called.  If
    it returns a tuple of [n] items, then for [-n <= i < n] the check is
    called once, by keyword, with as [df] the item at index [i], counted from
    the end when [i] is negative (index [i + n]), and when the check returns
    the tuple itself is returned; for any other [i] the index error of the
    indexing is raised and the check is not called. *)
Theorem C3_integer_locator store self f args kwargs v i :
  self_enabled self = inr v → truthy v = true → _df self = VInt i →
  let m := decorated store self f args kwargs in
  head (trace m) = Some (Called Target args kwargs (tg_call f args kwargs))
  ∧ match tg_call f args kwargs with
    | Raise e => calls Check (trace m) = [] ∧ result m = Raise e
    | Ret (VTuple items) =>
        let n := Z.of_nat (length items) in
        if decide (- n ≤ i < n)%Z then
          ∃ x,
            items !! Z.to_nat (if (i <? 0)%Z then i + n else i)%Z = Some x
            ∧ match self_check_func store self with
              | inl e => calls Check (trace m) = [] ∧ result m = Raise e
              | inr fn =>
                  let kw := <["df" := x]> (check_kwargs_of (inst_dict self)) in
                  calls Check (trace m) =
                    [Called Check [] kw (call_function fn [] kw)]
                  ∧ result m = match call_function fn [] kw with
                               | Ret _ => Ret (VTuple items)
                               | Raise e => Raise e
                               end
              end
        else
          calls Check (trace m) = [] ∧
          result m = Raise (IndexError "tuple index out of range")
    | Ret _ =>
        calls Check (trace m) = [] ∧
        result m = Raise (TypeError
          "Your function needs to return a tuple to use df=<int> in this decorator")
    end.
Proof.
  intros Hen Htrue Hdf m. unfold m, decorated, call_check.
  rewrite Hen, Hdf. run. rewrite Htrue; simpl.
  destruct (tg_call f args kwargs) as [res|e]; simpl; [|done].
  destruct res; simpl; try done.
  pose proof (tuple_getitem_spec items i) as Hitem. simpl in Hitem.
  destruct (tuple_getitem items i) as [e|x]; simpl.
  - destruct Hitem as [Hout ->]. rewrite decide_False by lia. done.
  - destruct Hitem as [Hin Hx]. rewrite decide_True by done.
    destruct (self_check_func store self); simpl; [by eauto|].
    destruct (call_function _ _ _) eqn:Hc; simpl;
      (split; [done|]; exists x; split; [done|]; by rewrite Hc).
Qed.

(** [NonNegative(df=-2)] on a function that returns [(4, 7)]: the check sees
    the first item, 4, and not the last. *)
Lemma C3_witness_negative_index :
  let m := decorated ∅ (non_negative_item (-2)) f_pair [VInt 4] ∅ in
  self_enabled (non_negative_item (-2)) = inr (VBool true) ∧
  _df (non_negative_item (-2)) = VInt (-2) ∧
  tg_call f_pair [VInt 4] ∅ = Ret (VTuple [VInt 4; VInt 7]) ∧
  calls Check (trace m) =
    [Called Check [] {[ "df" := VInt 4 ]} (Ret VNone)] ∧
  result m = Ret (VTuple [VInt 4; VInt 7]).
Proof.
  intros m. split; [reflexivity|]. split; [reflexivity|]. split; [reflexivity|].
  destruct (proj2 (C3_integer_locator ∅ (non_negative_item (-2)) f_pair [VInt 4] ∅
                     (VBool true) (-2) eq_refl eq_refl eq_refl))
    as (x & Hx & Hcalls & Hres).
  injection Hx as <-. split; [exact Hcalls | exact Hres].
Defined.

(** ** Keyword calls of the check *)

Lemma bind_keywords_keeps ps k x : ∀ kwargs acc varkw,
  kwargs !! k = Some x →
  Forall (λ p, ¬ takes p k) ps →
  match bind_keywords ps kwargs acc varkw with
  | inl e => ∃ msg, e = TypeError msg
  | inr (_, extra, varkw') => extra !! k = Some x ∧ varkw' = varkw
  end.
Proof.
  induction ps as [|p ps IH]; intros kwargs acc varkw Hk Hps; simpl; [done|].
  apply Forall_cons in Hps as [Hp Hps]. unfold takes in Hp.
  destruct (p_kind p) eqn:Hkind.
  - destruct (p_default p); [by apply IH|]. by eexists.
  - destruct (kwargs !! p_name p) eqn:Hl.
    + apply IH; [|done]. rewrite lookup_delete_ne; [done|].
      intros Heq. apply Hp. right. split; [done|by left].
    + destruct (p_default p); [by apply IH|]. by eexists.
  - by apply IH.
  - destruct (kwargs !! p_name p) eqn:Hl.
    + apply IH; [|done]. rewrite lookup_delete_ne; [done|].
      intros Heq. apply Hp. right. split; [done|by right].
    + destruct (p_default p); [by apply IH|]. by eexists.
  - exfalso. apply Hp. by left.
Qed.

(** A keyword that no parameter of the function takes makes a call without
    positional arguments raise a type error. *)
Lemma call_function_unexpected_keyword fn kwargs k x :
  kwargs !! k = Some x →
  takes_keyword (fn_params fn) k = false →
  ∃ msg, call_function fn [] kwargs = Raise (TypeError msg).
Proof.
  intros Hk Htakes. unfold call_function, sig_bind. simpl.
  apply bool_decide_eq_false in Htakes.
  apply (not_Exists_Forall (λ p, takes p k)) in Htakes.
  pose proof (bind_keywords_keeps (fn_params fn) k x kwargs ∅ None Hk Htakes) as Hb.
  destruct (bind_keywords _ _ _ _) as [e|[[acc extra] varkw]].
  - destruct Hb as [msg ->]. eexists. reflexivity.
  - destruct Hb as [Hextra ->].
    destruct (map_to_list extra) as [|[k' v'] rest] eqn:Hl.
    + apply map_to_list_empty_iff in Hl. subst extra. by rewrite lookup_empty in Hextra.
    + eexists. reflexivity.
Qed.

(** The claim C10 ends on: a check whose first parameter is not named [df]
    cannot be called with success through a generated decorator.  The check
    [at_least(minimum, df)] has its data second, and [AtLeast(minimum=3)]
    calls it with success as [at_least(minimum=3, df=5)]. *)
Lemma C10_counterexample_data_not_first :
  ¬ (∀ cls args kwargs self f cargs ckwargs ev,
       head (param_names (fn_params (cls_check_func cls))) ≠ Some "df" →
       BaseDecorator_init cls args kwargs = inr self →
       ev ∈ trace (decorated ∅ self f cargs ckwargs) →
       ev_callee ev = Check →
       is_raise (ev_result ev)).
Proof.
  intros Hclaim.
  apply (Hclaim AtLeast [] {[ "minimum" := VInt 3 ]} at_least_three
           f_required [VInt 5] ∅
           (Called Check [] {[ "minimum" := VInt 3; "df" := VInt 5 ]} (Ret VNone))).
  - discriminate.
  - reflexivity.
  - apply list_elem_of_further, list_elem_of_here.
  - reflexivity.
Qed.

(** C10, amended.  Whenever the wrapped function of an enabled generated
    decorator calls the check, it passes no positional argument; the keywords
    are the entries of the instance's [__dict__] other than [check_func],
    [enabled] and [params], with [df] set to the checked value (the target's
    result, item [i] of it, or the bound value of the named argument) in
    place of the locator.  So a check that has no parameter named [df] that
    can be passed by keyword, and no [**kwargs], raises a type error. *)
Theorem C10_check_called_by_keyword store self f args kwargs v ev :
  self_enabled self = inr v → truthy v = true →
  ev ∈ trace (decorated store self f args kwargs) →
  ev_callee ev = Check →
  ev_args ev = []
  ∧ (∃ x, ev_kwargs ev = <["df" := x]> (check_kwargs_of (inst_dict self))
        ∧ match _df self with
          | VNone => tg_call f args kwargs = Ret x
          | VInt i => ∃ items, tg_call f args kwargs = Ret (VTuple items)
                               ∧ tuple_getitem items i = inr x
          | VStr name => _get_arg_value f name args kwargs = inr x
          | _ => False
          end)
  ∧ (∀ k, k ≠ "df" →
       ev_kwargs ev !! k =
       if decide (k ∈ ["check_func"; "enabled"; "params"]) then None
       else inst_dict self !! k)
  ∧ (∃ fn, self_check_func store self = inr fn
        ∧ ev_result ev = call_function fn [] (ev_kwargs ev)
        ∧ (takes_keyword (fn_params fn) "df" = false →
           ∃ msg, ev_result ev = Raise (TypeError msg))).
Proof.
  intros Hen Htrue Hin Hcheck.
  assert (Hshape : ∃ x fn,
    ev = Called Check [] (<["df" := x]> (check_kwargs_of (inst_dict self)))
           (call_function fn [] (<["df" := x]> (check_kwargs_of (inst_dict self))))
    ∧ self_check_func store self = inr fn
    ∧ match _df self with
      | VNone => tg_call f args kwargs = Ret x
      | VInt i => ∃ items, tg_call f args kwargs = Ret (VTuple items)
                           ∧ tuple_getitem items i = inr x
      | VStr name => _get_arg_value f name args kwargs = inr x
      | _ => False
      end).
  { revert Hin Hcheck. unfold decorated, call_check. rewrite Hen. run.
    rewrite Htrue; simpl.
    destruct (_df self) eqn:Hdf; simpl; try (by intros ?%elem_of_nil).
    - destruct (tg_call f args kwargs) as [res|e0]; simpl;
        [|intros [->|?%elem_of_nil]%elem_of_cons; done].
      destruct (self_check_func store self) as [e1|fn]; simpl;
        [intros [->|?%elem_of_nil]%elem_of_cons; done|].
      destruct (call_function fn [] _) as [c|e1] eqn:Hc; simpl;
        intros [->|[->|?%elem_of_nil]%elem_of_cons]%elem_of_cons; try done;
        intros _; exists res, fn; by rewrite Hc.
    - destruct (tg_call f args kwargs) as [res|e0]; simpl;
        [|intros [->|?%elem_of_nil]%elem_of_cons; done].
      destruct res; simpl; try (intros [->|?%elem_of_nil]%elem_of_cons; done).
      destruct (tuple_getitem items n) as [e1|x] eqn:Hx; simpl;
        [intros [->|?%elem_of_nil]%elem_of_cons; done|].
      destruct (self_check_func store self) as [e1|fn]; simpl;
        [intros [->|?%elem_of_nil]%elem_of_cons; done|].
      destruct (call_function fn [] _) as [c|e1] eqn:Hc; simpl;
        intros [->|[->|?%elem_of_nil]%elem_of_cons]%elem_of_cons; try done;
        intros _; exists x, fn; rewrite Hc; eauto.
    - destruct (_get_arg_default f s); simpl; [by intros ?%elem_of_nil|].
      destruct (_get_arg_value f s args kwargs) as [e1|x]; simpl;
        [by intros ?%elem_of_nil|].
      destruct (_ || _); simpl.
      + destruct (self_check_func store self) as [e1|fn]; simpl;
          [by intros ?%elem_of_nil|].
        destruct (call_function fn [] _) as [c|e1] eqn:Hc; simpl.
        * destruct (tg_call f args kwargs); simpl;
            intros [->|[->|?%elem_of_nil]%elem_of_cons]%elem_of_cons; try done;
            intros _; exists x, fn; by rewrite Hc.
        * intros [->|?%elem_of_nil]%elem_of_cons; [|done].
          intros _; exists x, fn; by rewrite Hc.
      + destruct (tg_call f args kwargs); simpl;
          intros [->|?%elem_of_nil]%elem_of_cons; done. }
  destruct Hshape as (x & fn & -> & Hfn & Hx). simpl.
  split_and!; [done|by exists x| |].
  - intros k Hk. by rewrite lookup_insert_ne, check_kwargs_of_lookup.
  - exists fn. split_and!; [done|done|]. intros Htakes.
    apply (call_function_unexpected_keyword fn _ "df" x); [|done].
    apply lookup_insert_eq.
Qed.

Lemma C10_witness_no_df_parameter :
  let call := decorated ∅ first_item_result f_required [VInt 5] ∅ in
  let ev := Called Check [] {[ "df" := VInt 5 ]}
              (Raise (missing_argument (required "frame"))) in
  self_enabled first_item_result = inr (VBool true) ∧
  ev ∈ trace call ∧
  takes_keyword (fn_params first_item) "df" = false ∧
  ∃ msg, ev_result ev = Raise (TypeError msg).
Proof.
  intros call ev.
  assert (Hin : ev ∈ trace call) by apply list_elem_of_further, list_elem_of_here.
  split; [reflexivity|]. split; [exact Hin|]. split; [reflexivity|].
  destruct (C10_check_called_by_keyword ∅ first_item_result f_required
              [VInt 5] ∅ (VBool true) ev eq_refl eq_refl Hin eq_refl)
    as (_ & _ & _ & fn & Hfn & _ & Hraise).
  injection Hfn as <-. apply Hraise. reflexivity.
Defined.

(** ** The string locator *)

(** With a string locator, once the default and the bound value of the named
    argument are resolved, the check is called exactly when the default is an
    instance of [Parameter.empty] or the value is not None. *)
Lemma string_locator_check_condition
    store self f args kwargs v name d x fn :
  self_enabled self = inr v → truthy v = true → _df self = VStr name →
  _get_arg_default f name = inr d →
  _get_arg_value f name args kwargs = inr x →
  self_check_func store self = inr fn →
  let kw := <["df" := x]> (check_kwargs_of (inst_dict self)) in
  calls Check (trace (decorated store self f args kwargs)) =
    if isinstance_empty d || negb (is_none x)
    then [Called Check [] kw (call_function fn [] kw)] else [].
Proof.
  intros Hen Htrue Hdf Hd Hx Hfn kw. unfold decorated, call_check.
  rewrite Hen, Hdf, Hd, Hx, Hfn. run. rewrite Htrue; simpl. fold kw.
  destruct (_ || _); simpl.
  - destruct (call_function fn [] kw); simpl; [|done].
    by destruct (tg_call f args kwargs).
  - by destruct (tg_call f args kwargs).
Qed.

(** The marker of a parameter without default is never an instance of
    [Parameter.empty], so for a required parameter the test comes down to
    the value: None is not checked. *)
Lemma required_parameter_None_not_checked
    store self f args kwargs v name fn :
  self_enabled self = inr v → truthy v = true → _df self = VStr name →
  _get_arg_default f name = inr None →
  _get_arg_value f name args kwargs = inr VNone →
  self_check_func store self = inr fn →
  calls Check (trace (decorated store self f args kwargs)) = [].
Proof.
  intros Hen Htrue Hdf Hd Hx Hfn.
  by rewrite (string_locator_check_condition store self f args kwargs
                v name None VNone fn).
Qed.

(** C1, at [f(None)] for [def f(x): return x] wrapped by
    [AlwaysRaises(df="x")]: [x] is required and is passed None, and the call
    returns None after one call, to the target; the check, which would
    raise, is not called.  With 5 in place of None the check is called, and
    with [def f(x=None)] called without arguments it is not. *)
Theorem C1_required_argument_None_is_not_checked :
  BaseDecorator_init AlwaysRaises [] {[ "df" := VStr "x" ]}
    = inr (always_raises_arg "x")
  ∧ BaseDecorator_call ∅ (always_raises_arg "x") f_required
    = inr (decorated ∅ (always_raises_arg "x") f_required)
  ∧ _get_arg_default f_required "x" = inr None
  ∧ _get_arg_value f_required "x" [VNone] ∅ = inr VNone
  ∧ decorated ∅ (always_raises_arg "x") f_required [VNone] ∅
    = ([Called Target [VNone] ∅ (Ret VNone)], Ret VNone)
  ∧ decorated ∅ (always_raises_arg "x") f_required [VInt 5] ∅
    = ([Called Check [] {[ "df" := VInt 5 ]} (Raise (AssertionError "always"))],
       Raise (AssertionError "always"))
  ∧ decorated ∅ (always_raises_arg "x") f_optional [] ∅
    = ([Called Target [] ∅ (Ret VNone)], Ret VNone).
Proof. split_and!; reflexivity. Qed.

(** ** Construction of a CustomCheck *)

(** What [CustomCheck.__init__] stores when it succeeds. *)
Lemma CustomCheck_init_inv store args kwargs self :
  CustomCheck_init store args kwargs = inr self →
  ∃ check_func_args names,
    cc_enabled self = default (VBool true) (kwargs !! "enabled")
    ∧ (if truthy (default VNone (kwargs !! "check_func"))
       then kwargs !! "check_func" = Some (cc_check_func self)
            ∧ check_func_args = args
       else args = cc_check_func self :: check_func_args)
    ∧ getfullargspec_of store (cc_check_func self) = inr names
    ∧ ∀ k, cc_check_func_params self !! k =
        match delete "enabled" kwargs !! k with
        | Some x => Some x
        | None => dict_of (zip (tail names) check_func_args) !! k
        end.
Proof.
  unfold CustomCheck_init. rewrite lookup_delete_ne by done.
  destruct (kwargs !! "check_func") as [cf|] eqn:Hcf; simpl.
  - destruct (truthy cf) eqn:Ht.
    + destruct (getfullargspec_of store cf) as [e|names] eqn:Hn; [done|].
      intros [= <-]. simpl. exists args, names.
      split_and!; try done. intros k. apply update_lookup.
    + destruct args as [|a rest]; [done|].
      destruct (getfullargspec_of store a) as [e|names] eqn:Hn; [done|].
      intros [= <-]. simpl. exists rest, names.
      split_and!; try done. intros k. apply update_lookup.
  - destruct args as [|a rest]; [done|].
    destruct (getfullargspec_of store a) as [e|names] eqn:Hn; [done|].
    intros [= <-]. simpl. exists rest, names.
    split_and!; try done. intros k. apply update_lookup.
Qed.

(** The keyword [enabled] is taken out of the forwarded keywords, the
    keyword [check_func] is not: it is read with [get] and stays. *)
Lemma CustomCheck_init_forwards_check_func store args kwargs self cf :
  kwargs !! "check_func" = Some cf →
  CustomCheck_init store args kwargs = inr self →
  cc_check_func_params self !! "check_func" = Some cf.
Proof.
  intros Hcf (cfa & names & _ & _ & _ & Hparams)%CustomCheck_init_inv.
  by rewrite Hparams, lookup_delete_ne, Hcf.
Qed.

(** C8, at [CustomCheck(True, check_func=non_negative)]: the positional
    [True] is bound to [strict], the second parameter of the check, and the
    forwarded mapping has the key [check_func], so that the call
    [custom_check(df, check_func, **check_func_params)] is given the check
    twice. *)
Theorem C8_keyword_check_func_is_forwarded :
  ∃ self,
    CustomCheck_init check_store [VBool true] {[ "check_func" := VFunc 0 ]} = inr self
    ∧ cc_check_func self = VFunc 0
    ∧ cc_check_func_params self =
        {[ "strict" := VBool true; "check_func" := VFunc 0 ]}
    ∧ ∀ f, trace (CustomCheck_call (λ _ _, Ret VNone) self f [] ∅) =
        [Called Target [] ∅ (tg_call f [] ∅)] ∨
        ∃ df, trace (CustomCheck_call (λ _ _, Ret VNone) self f [] ∅) =
          [Called Target [] ∅ (Ret df);
           Called Check [df; VFunc 0]
             {[ "strict" := VBool true; "check_func" := VFunc 0 ]} (Ret VNone)].
Proof.
  eexists. split; [reflexivity|]. split; [reflexivity|]. split; [reflexivity|].
  intros f. unfold CustomCheck_call, CustomCheck_decorated, call_custom_check.
  run. destruct (tg_call f [] ∅) as [df|e]; simpl; [right|left]; eauto.
Qed.

(** ** The registry *)

Lemma filter_zip_absent (names : list string) (args : list pyval) p :
  p ∉ names → filter (λ kv : string * pyval, kv.1 = p) (zip names args) = [].
Proof.
  intros Hp. destruct (filter _ _) as [|[k x] l] eqn:Hf; [done|].
  assert (Hin : (k, x) ∈ filter (λ kv : string * pyval, kv.1 = p) (zip names args)).
  { rewrite Hf. apply list_elem_of_here. }
  apply list_elem_of_filter in Hin as [Hk Hin]. simpl in Hk. subst k.
  by apply elem_of_zip_l in Hin.
Qed.

Lemma filter_zip_NoDup (names : list string) : ∀ (args : list pyval) i p x,
  NoDup names → names !! i = Some p → args !! i = Some x →
  filter (λ kv : string * pyval, kv.1 = p) (zip names args) = [(p, x)].
Proof.
  induction names as [|n names IH]; intros args i p x Hnd Hn Ha; [done|].
  apply NoDup_cons in Hnd as [Hfresh Hnd].
  destruct args as [|a args]; [by destruct i|].
  destruct i as [|i]; simpl in *.
  - injection Hn as ->. injection Ha as ->.
    rewrite filter_cons_True by done. by rewrite filter_zip_absent.
  - rewrite filter_cons_False; [by eapply IH|].
    simpl. intros ->. apply Hfresh. by eapply list_elem_of_lookup_2.
Qed.

(** Positional configuration lands on the parameter of its position. *)
Lemma dict_of_zip_lookup (names : list string) (args : list pyval) i p x :
  NoDup names → names !! i = Some p → args !! i = Some x →
  dict_of (zip names args) !! p = Some x.
Proof.
  intros Hnd Hn Ha. rewrite dict_of_lookup.
  by rewrite (filter_zip_NoDup names args i p x).
Qed.

Section Registry.

Variable store : gmap nat pyfunc.
Variable snake_to_camel : string → string.



End Registry.




(** * Further properties *)

(** ** Binding of call arguments *)

Lemma sig_bind_error ps args kwargs e :
  sig_bind ps args kwargs = inl e → ∃ msg, e = TypeError msg.
Proof.
  unfold sig_bind.
  assert (Hpos : ∀ args ps acc e,
    bind_positional ps args kwargs acc = inl e → ∃ msg, e = TypeError msg).
  { clear. induction args as [|a args IH]; intros ps acc e; simpl; [done|].
    destruct ps as [|p ps]; [intros [= <-]; by eexists|].
    destruct (p_kind p); try (intros [= <-]; by eexists); [apply IH|].
    case_decide; [intros [= <-]; by eexists|apply IH]. }
  assert (Hkw : ∀ ps kw acc varkw e,
    bind_keywords ps kw acc varkw = inl e → ∃ msg, e = TypeError msg).
  { clear. induction ps as [|p ps IH]; intros kw acc varkw e; simpl; [done|].
    destruct (p_kind p); try apply IH.
    - destruct (p_default p); [apply IH|intros [= <-]; by eexists].
    - destruct (kw !! p_name p); [apply IH|].
      destruct (p_default p); [apply IH|intros [= <-]; by eexists].
    - destruct (kw !! p_name p); [apply IH|].
      destruct (p_default p); [apply IH|intros [= <-]; by eexists]. }
  destruct (bind_positional ps args kwargs ∅) as [e1|[ps' acc]] eqn:Hp.
  - intros [= <-]. by eapply Hpos.
  - destruct (bind_keywords ps' kwargs acc None) as [e1|[[acc' extra] varkw]] eqn:Hk.
    + intros [= <-]. by eapply Hkw.
    + destruct (map_to_list extra) as [|[k x] rest]; [done|].
      destruct varkw; [done|]. intros [= <-]. by eexists.
Qed.

(** What the positional phase does: it takes a prefix of the parameters, no
    longer than the arguments, binds each parameter of the prefix, and
    leaves every other name alone.  A parameter of the prefix is not
    keyword-only and not [**kwargs], and when it can also be passed by
    keyword there is no keyword of its name. *)
Lemma bind_positional_inv kwargs : ∀ args ps acc ps' acc',
  bind_positional ps args kwargs acc = inr (ps', acc') →
  ∃ consumed, ps = consumed ++ ps'
    ∧ (length consumed ≤ length args)%nat
    ∧ (∀ k, k ∉ p_name <$> consumed → acc' !! k = acc !! k)
    ∧ (∀ k, is_Some (acc !! k) → is_Some (acc' !! k))
    ∧ (∀ p, p ∈ consumed → is_Some (acc' !! p_name p))
    ∧ (∀ p, p ∈ consumed →
         p_kind p ≠ KEYWORD_ONLY ∧ p_kind p ≠ VAR_KEYWORD ∧
         (p_kind p = POSITIONAL_OR_KEYWORD → kwargs !! p_name p = None)).
Proof.
  induction args as [|a args IH]; intros ps acc ps' acc'; simpl.
  { intros [= <- <-]. exists []. split_and!; try done; by intros p ?%elem_of_nil. }
  destruct ps as [|p ps]; [done|].
  assert (Hstep : bind_positional ps args kwargs (<[p_name p := a]> acc) = inr (ps', acc') →
    (p_kind p = POSITIONAL_OR_KEYWORD → kwargs !! p_name p = None) →
    p_kind p ≠ KEYWORD_ONLY → p_kind p ≠ VAR_KEYWORD →
    ∃ consumed, p :: ps = consumed ++ ps'
    ∧ (length consumed ≤ S (length args))%nat
    ∧ (∀ k, k ∉ p_name <$> consumed → acc' !! k = acc !! k)
    ∧ (∀ k, is_Some (acc !! k) → is_Some (acc' !! k))
    ∧ (∀ p, p ∈ consumed → is_Some (acc' !! p_name p))
    ∧ (∀ p, p ∈ consumed →
         p_kind p ≠ KEYWORD_ONLY ∧ p_kind p ≠ VAR_KEYWORD ∧
         (p_kind p = POSITIONAL_OR_KEYWORD → kwargs !! p_name p = None))).
  { intros Hrec Hkw Hk1 Hk2.
    destruct (IH _ _ _ _ Hrec) as (consumed & -> & Hlen & Hframe & Hmono & Hbound & Hkinds).
    exists (p :: consumed). split_and!; [done|simpl; lia|..].
    - intros k Hk. rewrite fmap_cons, not_elem_of_cons in Hk. destruct Hk as [Hne Hk].
      by rewrite Hframe, lookup_insert_ne.
    - intros k Hk. apply Hmono.
      destruct (decide (p_name p = k)) as [->|Hne];
        [rewrite lookup_insert_eq; by eexists|by rewrite lookup_insert_ne].
    - intros q [->|Hq]%elem_of_cons; [|by apply Hbound].
      apply Hmono. rewrite lookup_insert_eq. by eexists.
    - intros q [->|Hq]%elem_of_cons; [done|by apply Hkinds]. }
  destruct (p_kind p) eqn:Hkind; try done.
  - intros Hrec. by apply Hstep.
  - case_decide as Hdup; [done|]. intros Hrec. apply Hstep; try done.
    intros _. by apply eq_None_not_Some.
  - intros [= <- <-]. exists [p]. split_and!; [done|simpl; lia|..].
    + intros k Hk. rewrite fmap_cons, not_elem_of_cons in Hk.
      destruct Hk as [Hne _]. by rewrite lookup_insert_ne.
    + intros k Hk. destruct (decide (p_name p = k)) as [->|Hne];
        [rewrite lookup_insert_eq; by eexists|by rewrite lookup_insert_ne].
    + intros q ->%list_elem_of_singleton. rewrite lookup_insert_eq. by eexists.
    + intros q ->%list_elem_of_singleton. rewrite Hkind. done.
Qed.

(** What the keyword phase does: it changes the bound arguments only at
    names of its parameters that have a keyword, leaves every parameter
    covered, and a [**kwargs] it reports is one of its parameters. *)
Lemma bind_keywords_inv : ∀ ps kwargs acc varkw acc' extra varkw',
  bind_keywords ps kwargs acc varkw = inr (acc', extra, varkw') →
  (∀ k, k ∉ p_name <$> ps → acc' !! k = acc !! k)
  ∧ (∀ k, kwargs !! k = None → acc' !! k = acc !! k)
  ∧ (∀ k, is_Some (acc !! k) → is_Some (acc' !! k))
  ∧ (∀ p, p ∈ ps → covered p acc')
  ∧ (varkw' = varkw ∨
     ∃ q, q ∈ ps ∧ p_kind q = VAR_KEYWORD ∧ varkw' = Some (p_name q)).
Proof.
  induction ps as [|p ps IH]; intros kwargs acc varkw acc' extra varkw'; simpl.
  { intros [= <- <- <-]. split_and!; try done; [by intros p ?%elem_of_nil|by left]. }
  assert (Hskip : ∀ varkw0,
    bind_keywords ps kwargs acc varkw0 = inr (acc', extra, varkw') →
    covered p acc →
    (varkw0 = varkw ∨ (p_kind p = VAR_KEYWORD ∧ varkw0 = Some (p_name p))) →
    (∀ k, k ∉ p_name <$> p :: ps → acc' !! k = acc !! k)
    ∧ (∀ k, kwargs !! k = None → acc' !! k = acc !! k)
    ∧ (∀ k, is_Some (acc !! k) → is_Some (acc' !! k))
    ∧ (∀ q, q ∈ p :: ps → covered q acc')
    ∧ (varkw' = varkw ∨
       ∃ q, q ∈ p :: ps ∧ p_kind q = VAR_KEYWORD ∧ varkw' = Some (p_name q))).
  { intros varkw0 Hrec Hcov Hvar.
    destruct (IH _ _ _ _ _ _ Hrec) as (Hframe & Hnokw & Hmono & Hcovd & Hvk).
    split_and!; [| done | done | |].
    - intros k Hk. rewrite fmap_cons, not_elem_of_cons in Hk. apply Hframe, Hk.
    - intros q [->|Hq]%elem_of_cons; [|by apply Hcovd].
      destruct Hcov as [Hb|Hcov]; [left; by apply Hmono|by right].
    - destruct Hvk as [->|(q & Hq & Hkq & ->)].
      + destruct Hvar as [->|[Hk ->]]; [by left|].
        right. exists p. split_and!; [apply list_elem_of_here|done|done].
      + right. exists q. split_and!; [by apply list_elem_of_further|done|done]. }
  assert (Htake : ∀ v, kwargs !! p_name p = Some v →
    bind_keywords ps (delete (p_name p) kwargs) (<[p_name p := v]> acc) varkw
      = inr (acc', extra, varkw') →
    (∀ k, k ∉ p_name <$> p :: ps → acc' !! k = acc !! k)
    ∧ (∀ k, kwargs !! k = None → acc' !! k = acc !! k)
    ∧ (∀ k, is_Some (acc !! k) → is_Some (acc' !! k))
    ∧ (∀ q, q ∈ p :: ps → covered q acc')
    ∧ (varkw' = varkw ∨
       ∃ q, q ∈ p :: ps ∧ p_kind q = VAR_KEYWORD ∧ varkw' = Some (p_name q))).
  { intros v Hv Hrec.
    destruct (IH _ _ _ _ _ _ Hrec) as (Hframe & Hnokw & Hmono & Hcovd & Hvk).
    split_and!.
    - intros k Hk. rewrite fmap_cons, not_elem_of_cons in Hk. destruct Hk as [Hne Hk].
      by rewrite Hframe, lookup_insert_ne.
    - intros k Hk. assert (p_name p ≠ k) by (intros Heq; rewrite Heq in Hv; congruence).
      rewrite Hnokw, lookup_insert_ne; [done|done|].
      by rewrite lookup_delete_ne.
    - intros k Hk. apply Hmono.
      destruct (decide (p_name p = k)) as [->|Hne];
        [rewrite lookup_insert_eq; by eexists|by rewrite lookup_insert_ne].
    - intros q [->|Hq]%elem_of_cons; [|by apply Hcovd].
      left. apply Hmono. rewrite lookup_insert_eq. by eexists.
    - destruct Hvk as [->|(q & Hq & Hkq & ->)]; [by left|].
      right. exists q. split_and!; [by apply list_elem_of_further|done|done]. }
  destruct (p_kind p) eqn:Hkind.
  - destruct (p_default p) eqn:Hd; [|done]. intros Hrec.
    apply (Hskip varkw); [done| |by left]. right. left. by eexists.
  - destruct (kwargs !! p_name p) as [v|] eqn:Hv; [by apply Htake|].
    destruct (p_default p) eqn:Hd; [|done]. intros Hrec.
    apply (Hskip varkw); [done| |by left]. right. left. by eexists.
  - intros Hrec. apply (Hskip varkw); [done| |by left]. right. right. by left.
  - destruct (kwargs !! p_name p) as [v|] eqn:Hv; [by apply Htake|].
    destruct (p_default p) eqn:Hd; [|done]. intros Hrec.
    apply (Hskip varkw); [done| |by left]. right. left. by eexists.
  - intros Hrec. apply (Hskip (Some (p_name p))); [done| |by right].
    right. right. by right.
Qed.

Lemma same_name_same_param (ps : list param) p q :
  NoDup (p_name <$> ps) → p ∈ ps → q ∈ ps → p_name p = p_name q → p = q.
Proof.
  induction ps as [|r ps IH]; [by intros _ ?%elem_of_nil|].
  rewrite fmap_cons. intros [Hfresh Hnd]%NoDup_cons Hp Hq Heq.
  apply elem_of_cons in Hp as [->|Hp]; apply elem_of_cons in Hq as [->|Hq].
  - done.
  - exfalso. apply Hfresh. rewrite Heq. by apply list_elem_of_fmap_2.
  - exfalso. apply Hfresh. rewrite <- Heq. by apply list_elem_of_fmap_2.
  - by apply IH.
Qed.

(** Applying the defaults keeps what is bound, *)
Lemma apply_defaults_bound ps : ∀ bound k v,
  bound !! k = Some v → apply_defaults ps bound !! k = Some v.
Proof.
  unfold apply_defaults.
  induction ps as [|p ps IH]; intros bound k v Hk; simpl; [done|].
  apply IH. destruct (bound !! p_name p) eqn:Hp; [done|].
  assert (p_name p ≠ k) by (intros Heq; rewrite Heq in Hp; congruence).
  destruct (p_default p), (p_kind p); by rewrite ?lookup_insert_ne.
Qed.

(** gives every covered parameter a value, *)
Lemma apply_defaults_covers ps : ∀ bound p,
  p ∈ ps → covered p bound → is_Some (apply_defaults ps bound !! p_name p).
Proof.
  unfold apply_defaults.
  induction ps as [|q ps IH]; intros bound p Hp Hcov; [by apply elem_of_nil in Hp|].
  simpl. apply elem_of_cons in Hp as [->|Hp].
  - fold (apply_defaults ps).
    destruct (bound !! p_name q) as [x|] eqn:Hq.
    { exists x. by apply apply_defaults_bound. }
    destruct Hcov as [[x Hx]|[[d Hd]|[Hk|Hk]]]; [congruence|..].
    + rewrite Hd. exists d. apply apply_defaults_bound. apply lookup_insert_eq.
    + rewrite Hk. destruct (p_default q) as [d|].
      * exists d. apply apply_defaults_bound. apply lookup_insert_eq.
      * eexists. apply apply_defaults_bound. apply lookup_insert_eq.
    + rewrite Hk. destruct (p_default q) as [d|].
      * exists d. apply apply_defaults_bound. apply lookup_insert_eq.
      * eexists. apply apply_defaults_bound. apply lookup_insert_eq.
  - apply IH; [done|].
    destruct Hcov as [[x Hx]|Hcov]; [|by right].
    left. exists x. destruct (bound !! p_name q) eqn:Hq; [done|].
    assert (p_name q ≠ p_name p) by (intros Heq; rewrite Heq in Hq; congruence).
    destruct (p_default q), (p_kind q); by rewrite ?lookup_insert_ne.
Qed.

(** and gives an unbound parameter its default, or the empty tuple when it
    is [*args] without one. *)
Lemma apply_defaults_unbound ps : ∀ bound p,
  NoDup (p_name <$> ps) → p ∈ ps → bound !! p_name p = None →
  apply_defaults ps bound !! p_name p =
    match p_default p, p_kind p with
    | Some d, _ => Some d
    | None, VAR_POSITIONAL => Some (VTuple [])
    | None, VAR_KEYWORD => Some (VDict [])
    | None, _ => None
    end.
Proof.
  unfold apply_defaults.
  induction ps as [|q ps IH]; intros bound p Hnd Hp Hnone;
    [by apply elem_of_nil in Hp|].
  rewrite fmap_cons in Hnd. apply NoDup_cons in Hnd as [Hfresh Hnd].
  simpl. fold (apply_defaults ps). apply elem_of_cons in Hp as [->|Hp].
  - rewrite Hnone.
    assert (Hkeep : ∀ b : gmap string pyval, b !! p_name q = None →
              apply_defaults ps b !! p_name q = None).
    { clear -Hfresh. unfold apply_defaults.
      induction ps as [|r ps IH]; intros b Hb; simpl; [done|].
      rewrite fmap_cons, not_elem_of_cons in Hfresh. destruct Hfresh as [Hne Hfresh].
      apply IH; [done|]. destruct (b !! p_name r); [done|].
      destruct (p_default r), (p_kind r); by rewrite ?lookup_insert_ne. }
    destruct (p_default q) as [d|]; [apply apply_defaults_bound, lookup_insert_eq|].
    destruct (p_kind q); try (by apply Hkeep);
      apply apply_defaults_bound, lookup_insert_eq.
  - assert (p_name q ≠ p_name p).
    { intros Heq. apply Hfresh. rewrite Heq. by apply list_elem_of_fmap_2. }
    apply IH; [done|done|]. destruct (bound !! p_name q); [done|].
    destruct (p_default q), (p_kind q); by rewrite ?lookup_insert_ne.
Qed.

(** When the arguments bind, every parameter is covered. *)
Lemma sig_bind_covers ps args kwargs bound p :
  sig_bind ps args kwargs = inr bound → p ∈ ps → covered p bound.
Proof.
  unfold sig_bind.
  destruct (bind_positional ps args kwargs ∅) as [e|[ps' acc]] eqn:Hpos; [done|].
  destruct (bind_keywords ps' kwargs acc None) as [e|[[acc' extra] varkw]] eqn:Hkw;
    [done|].
  apply bind_positional_inv in Hpos
    as (consumed & -> & _ & _ & _ & Hbound & _).
  apply bind_keywords_inv in Hkw as (_ & _ & Hmono & Hcov & _).
  intros Hb Hp.
  assert (Hc : covered p acc').
  { apply elem_of_app in Hp as [Hp|Hp]; [|by apply Hcov].
    left. by apply Hmono, Hbound. }
  destruct (map_to_list extra) as [|[k x] rest]; [by injection Hb as <-|].
  destruct varkw as [kw|]; [|done]. injection Hb as <-.
  destruct Hc as [[y Hy]|Hc]; [|by right]. left.
  destruct (decide (kw = p_name p)) as [->|Hne];
    [rewrite lookup_insert_eq|rewrite lookup_insert_ne by done]; by eexists.
Qed.

Lemma bind_keywords_takes v : ∀ ps p kwargs acc varkw acc' extra varkw',
  NoDup (p_name <$> ps) → p ∈ ps → by_keyword p →
  kwargs !! p_name p = Some v →
  bind_keywords ps kwargs acc varkw = inr (acc', extra, varkw') →
  acc' !! p_name p = Some v.
Proof.
  induction ps as [|q ps IH]; intros p kwargs acc varkw acc' extra varkw' Hnd Hp Hby Hv;
    [by apply elem_of_nil in Hp|].
  rewrite fmap_cons in Hnd. apply NoDup_cons in Hnd as [Hfresh Hnd].
  apply elem_of_cons in Hp as [->|Hp]; simpl.
  - destruct Hby as [Hk|Hk]; rewrite Hk, Hv; intros Hrec;
      apply bind_keywords_inv in Hrec as (Hframe & _);
      by rewrite Hframe, lookup_insert_eq.
  - assert (Hne : p_name q ≠ p_name p).
    { intros Heq. apply Hfresh. rewrite Heq. by apply list_elem_of_fmap_2. }
    assert (Hdel : delete (p_name q) kwargs !! p_name p = Some v)
      by by rewrite lookup_delete_ne.
    destruct (p_kind q).
    + destruct (p_default q); [by apply IH|done].
    + destruct (kwargs !! p_name q); [by apply IH|].
      destruct (p_default q); [by apply IH|done].
    + by apply IH.
    + destruct (kwargs !! p_name q); [by apply IH|].
      destruct (p_default q); [by apply IH|done].
    + by apply IH.
Qed.

(** A keyword that names a parameter is bound to that parameter. *)
Lemma sig_bind_keyword ps args kwargs bound p v :
  NoDup (p_name <$> ps) → p ∈ ps → by_keyword p →
  kwargs !! p_name p = Some v →
  sig_bind ps args kwargs = inr bound →
  bound !! p_name p = Some v.
Proof.
  intros Hnd Hp Hby Hv. unfold sig_bind.
  destruct (bind_positional ps args kwargs ∅) as [e|[ps' acc]] eqn:Hpos; [done|].
  destruct (bind_keywords ps' kwargs acc None) as [e|[[acc' extra] varkw]] eqn:Hkw;
    [done|].
  apply bind_positional_inv in Hpos as (consumed & -> & _ & _ & _ & _ & Hkinds).
  rewrite fmap_app in Hnd. pose proof Hnd as (_ & _ & Hnd')%NoDup_app.
  assert (Hp' : p ∈ ps').
  { apply elem_of_app in Hp as [Hp|Hp]; [|done].
    destruct (Hkinds p Hp) as (Hk1 & _ & Hk2).
    destruct Hby as [Hk|Hk]; [|done]. rewrite Hk2 in Hv; done. }
  pose proof (bind_keywords_takes v ps' p kwargs acc None acc' extra varkw
                Hnd' Hp' Hby Hv Hkw) as Hacc'.
  apply bind_keywords_inv in Hkw as (_ & _ & _ & _ & Hvk).
  destruct (map_to_list extra) as [|[k x] rest]; [by intros [= <-]|].
  destruct varkw as [kw|]; [|done]. intros [= <-].
  destruct Hvk as [|(q & Hq & Hkq & [= ->])]; [done|].
  rewrite lookup_insert_ne; [done|].
  intros Heq. assert (q = p) as -> by by eapply same_name_same_param.
  destruct Hby; congruence.
Qed.

Lemma bind_positional_at kwargs p v : ∀ args ps i acc ps' acc',
  NoDup (p_name <$> ps) → ps !! i = Some p → args !! i = Some v →
  Forall by_position (take (S i) ps) →
  bind_positional ps args kwargs acc = inr (ps', acc') →
  acc' !! p_name p = Some v ∧ p_name p ∉ p_name <$> ps'.
Proof.
  induction args as [|a args IH]; intros ps i acc ps' acc' Hnd Hp Hv Hpos; [done|].
  destruct ps as [|q ps]; [done|].
  rewrite fmap_cons in Hnd. apply NoDup_cons in Hnd as [Hfresh Hnd].
  rewrite firstn_cons in Hpos. apply Forall_cons in Hpos as [Hq Hpos].
  assert (Hstep : bind_positional ps args kwargs (<[p_name q := a]> acc) = inr (ps', acc') →
            acc' !! p_name p = Some v ∧ p_name p ∉ p_name <$> ps').
  { intros Hrec. destruct i as [|i]; simpl in Hp, Hv.
    - injection Hp as ->. injection Hv as ->.
      apply bind_positional_inv in Hrec as (consumed & -> & _ & Hframe & _).
      rewrite fmap_app, not_elem_of_app in Hfresh. destruct Hfresh as [Hc Hr].
      split; [|done]. by rewrite Hframe, lookup_insert_eq.
    - by eapply IH. }
  simpl. destruct Hq as [Hk|Hk]; rewrite Hk; [done|].
  case_decide; [done|]. done.
Qed.

(** A positional argument is bound to the parameter of its position, when
    the parameters up to there are positional ones. *)
Lemma sig_bind_position ps args kwargs bound i p v :
  NoDup (p_name <$> ps) → ps !! i = Some p → args !! i = Some v →
  Forall by_position (take (S i) ps) →
  sig_bind ps args kwargs = inr bound →
  bound !! p_name p = Some v.
Proof.
  intros Hnd Hp Hv Hpos. unfold sig_bind.
  destruct (bind_positional ps args kwargs ∅) as [e|[ps' acc]] eqn:Hbp; [done|].
  destruct (bind_keywords ps' kwargs acc None) as [e|[[acc' extra] varkw]] eqn:Hkw;
    [done|].
  destruct (bind_positional_at kwargs p v args ps i ∅ ps' acc Hnd Hp Hv Hpos Hbp)
    as [Hacc Hout].
  apply bind_keywords_inv in Hkw as (Hframe & _ & _ & _ & Hvk).
  destruct (map_to_list extra) as [|[k x] rest];
    [intros [= <-]; by rewrite Hframe|].
  destruct varkw as [kw|]; [|done]. intros [= <-].
  destruct Hvk as [|(q & Hq & Hkq & [= ->])]; [done|].
  rewrite lookup_insert_ne, Hframe; [done|done|].
  intros Heq. apply Hout. rewrite <- Heq. by apply list_elem_of_fmap_2.
Qed.

(** A parameter that no argument reaches and no keyword names is left
    unbound. *)
Lemma sig_bind_omitted ps args kwargs bound i p :
  NoDup (p_name <$> ps) → ps !! i = Some p → (length args ≤ i)%nat →
  kwargs !! p_name p = None → p_kind p ≠ VAR_KEYWORD →
  sig_bind ps args kwargs = inr bound →
  bound !! p_name p = None.
Proof.
  intros Hnd Hp Hlen Hkw Hkind. unfold sig_bind.
  destruct (bind_positional ps args kwargs ∅) as [e|[ps' acc]] eqn:Hbp; [done|].
  destruct (bind_keywords ps' kwargs acc None) as [e|[[acc' extra] varkw]] eqn:Hbk;
    [done|].
  apply bind_positional_inv in Hbp as (consumed & -> & Hcl & Hframe & _).
  assert (Hp' : p ∈ ps').
  { rewrite lookup_app_r in Hp by lia. by eapply list_elem_of_lookup_2. }
  rewrite fmap_app in Hnd. pose proof Hnd as (_ & Hdisj & Hnd')%NoDup_app.
  assert (Hacc : acc !! p_name p = None).
  { rewrite Hframe; [done|]. intros Hin. apply (Hdisj _ Hin).
    by apply list_elem_of_fmap_2. }
  apply bind_keywords_inv in Hbk as (_ & Hnokw & _ & _ & Hvk).
  destruct (map_to_list extra) as [|[k x] rest];
    [intros [= <-]; by rewrite Hnokw|].
  destruct varkw as [kw|]; [|done]. intros [= <-].
  destruct Hvk as [|(q & Hq & Hkq & [= ->])]; [done|].
  rewrite lookup_insert_ne, Hnokw; [done|done|].
  intros Heq. assert (q = p) as ->; [|done].
  eapply (same_name_same_param (consumed ++ ps')); [by rewrite fmap_app| | |done];
    apply elem_of_app; by right.
Qed.

(** ** The argument resolver *)

Lemma find_param_of_name ps name :
  name ∈ param_names ps →
  ∃ p, find_param ps name = Some p ∧ p ∈ ps ∧ p_name p = name.
Proof.
  intros (p & Hname & Hp)%list_elem_of_fmap. unfold find_param.
  destruct (list_find_elem_of (λ q, p_name q = name) ps p Hp) as [[i q] Hfind];
    [done|].
  rewrite Hfind. exists q. apply list_find_Some in Hfind as (Hq & Hn & _).
  split_and!; [done|by eapply list_elem_of_lookup_2|done].
Qed.

(** Without a keyword named [func] or [arg_name], [_get_arg_value] is the
    binding followed by the lookup. *)
Lemma get_arg_value_plain f name args kwargs :
  kwargs !! "func" = None → kwargs !! "arg_name" = None →
  _get_arg_value f name args kwargs =
    match sig_bind (tg_params f) args kwargs with
    | inl e => inl e
    | inr bound =>
      match apply_defaults (tg_params f) bound !! name with
      | Some v => inr v
      | None => inl (KeyError name)
      end
    end.
Proof.
  intros Hfunc Hname. unfold _get_arg_value. rewrite Hfunc, Hname.
  rewrite !decide_False by (by intros [? ?]). done.
Qed.

(** With a keyword named [func] or [arg_name], the call of [_get_arg_value]
    raises a type error. *)
Lemma get_arg_value_collision f name args kwargs :
  is_Some (kwargs !! "func") ∨ is_Some (kwargs !! "arg_name") →
  ∃ msg, _get_arg_value f name args kwargs = inl (TypeError msg).
Proof.
  intros Hkw. unfold _get_arg_value.
  destruct (decide (is_Some (kwargs !! "func"))); [by eexists|].
  destruct (decide (is_Some (kwargs !! "arg_name"))); [by eexists|].
  by destruct Hkw.
Qed.

(** Once [_has_arg_name] has accepted a name, looking up its default cannot
    fail, and looking up its value can fail only with a type error: that of
    the call of [_get_arg_value] itself when the caller passes a keyword
    named [func] or [arg_name], which are the resolver's own parameters, and
    else that of the binding when the call arguments do not bind to the
    signature.  In every other case there is a value; there is no key error
    at call time. *)
Theorem resolver_defined_for_accepted_name f name args kwargs :
  _has_arg_name name f = true →
  (∃ p, p ∈ tg_params f ∧ p_name p = name ∧
        _get_arg_default f name = inr (p_default p))
  ∧ (if decide (is_Some (kwargs !! "func") ∨ is_Some (kwargs !! "arg_name"))
     then ∃ msg, _get_arg_value f name args kwargs = inl (TypeError msg)
     else
       match sig_bind (tg_params f) args kwargs with
       | inl e =>
           _get_arg_value f name args kwargs = inl e ∧ ∃ msg, e = TypeError msg
       | inr _ => ∃ v, _get_arg_value f name args kwargs = inr v
       end).
Proof.
  intros Hname%has_arg_name_spec.
  destruct (find_param_of_name _ _ Hname) as (p & Hfind & Hp & Hpn).
  split.
  - exists p. unfold _get_arg_default. by rewrite Hfind.
  - case_decide as Hkw; [by apply get_arg_value_collision|].
    rewrite get_arg_value_plain;
      [|apply eq_None_not_Some; tauto|apply eq_None_not_Some; tauto].
    destruct (sig_bind (tg_params f) args kwargs) as [e|bound] eqn:Hbind.
    + split; [done|]. by eapply sig_bind_error.
    + destruct (apply_defaults_covers (tg_params f) bound p Hp) as [v Hv].
      { by eapply sig_bind_covers. }
      rewrite Hpn in Hv. rewrite Hv. by exists v.
Qed.

Lemma resolver_witness_scale :
  _has_arg_name "unit" f_scale = true ∧
  _get_arg_default f_scale "unit" = inr (Some (VStr "m")) ∧
  _get_arg_value f_scale "unit" [VInt 1] ∅ = inr (VStr "m") ∧
  _get_arg_value f_scale "unit" [VInt 1] {[ "func" := VInt 7 ]}
    = inl (multiple_values "func") ∧
  ∃ msg, _get_arg_value f_scale "unit" [] ∅ = inl (TypeError msg).
Proof.
  split; [reflexivity|]. split; [reflexivity|]. split; [reflexivity|].
  split; [reflexivity|].
  destruct (resolver_defined_for_accepted_name f_scale "unit" [] ∅ eq_refl)
    as [_ [Hvalue [msg Hmsg]]].
  exists msg. by rewrite Hvalue, Hmsg.
Defined.

(** When no keyword of the caller is named [func] or [arg_name], the value
    resolved for a parameter that the caller passes by keyword is the value
    of that keyword. *)
Theorem get_arg_value_by_keyword f p args kwargs bound v :
  kwargs !! "func" = None → kwargs !! "arg_name" = None →
  NoDup (param_names (tg_params f)) →
  p ∈ tg_params f → by_keyword p →
  kwargs !! p_name p = Some v →
  sig_bind (tg_params f) args kwargs = inr bound →
  _get_arg_value f (p_name p) args kwargs = inr v.
Proof.
  intros Hfunc Hname Hnd Hp Hby Hv Hbind.
  rewrite get_arg_value_plain, Hbind by done.
  erewrite apply_defaults_bound; [done|]. by eapply sig_bind_keyword.
Qed.

Lemma get_arg_value_by_keyword_witness :
  let unit := {| p_name := "unit"; p_kind := KEYWORD_ONLY;
                 p_default := Some (VStr "m") |} in
  sig_bind (tg_params f_scale) [VInt 1] {[ "unit" := VStr "cm" ]}
    = inr {[ "x" := VInt 1; "unit" := VStr "cm" ]} ∧
  _get_arg_value f_scale "unit" [VInt 1] {[ "unit" := VStr "cm" ]} = inr (VStr "cm").
Proof.
  intros unit. split; [reflexivity|].
  refine (get_arg_value_by_keyword f_scale unit [VInt 1] {[ "unit" := VStr "cm" ]}
            {[ "x" := VInt 1; "unit" := VStr "cm" ]} (VStr "cm")
            _ _ _ _ _ eq_refl eq_refl).
  - reflexivity.
  - reflexivity.
  - apply (bool_decide_unpack _). reflexivity.
  - do 3 apply list_elem_of_further. apply list_elem_of_here.
  - by right.
Defined.

(** When no keyword of the caller is named [func] or [arg_name], the value
    resolved for a parameter that the caller fills by position is the
    argument at that position. *)
Theorem get_arg_value_by_position f i p args kwargs bound v :
  kwargs !! "func" = None → kwargs !! "arg_name" = None →
  NoDup (param_names (tg_params f)) →
  tg_params f !! i = Some p → args !! i = Some v →
  Forall by_position (take (S i) (tg_params f)) →
  sig_bind (tg_params f) args kwargs = inr bound →
  _get_arg_value f (p_name p) args kwargs = inr v.
Proof.
  intros Hfunc Hname Hnd Hp Hv Hpos Hbind.
  rewrite get_arg_value_plain, Hbind by done.
  erewrite apply_defaults_bound; [done|]. by eapply sig_bind_position.
Qed.

Lemma get_arg_value_by_position_witness :
  sig_bind (tg_params f_scale) [VInt 1; VInt 3] ∅
    = inr {[ "x" := VInt 1; "factor" := VInt 3 ]} ∧
  _get_arg_value f_scale "factor" [VInt 1; VInt 3] ∅ = inr (VInt 3).
Proof.
  split; [reflexivity|].
  refine (get_arg_value_by_position f_scale 1 (optional "factor" (VInt 2))
            [VInt 1; VInt 3] ∅ {[ "x" := VInt 1; "factor" := VInt 3 ]} (VInt 3)
            _ _ _ eq_refl eq_refl _ eq_refl).
  - reflexivity.
  - reflexivity.
  - apply (bool_decide_unpack _). reflexivity.
  - repeat constructor; by right.
Defined.

(** When no keyword of the caller is named [func] or [arg_name], the value
    resolved for a parameter that the caller leaves out is its declared
    default. *)
Theorem get_arg_value_default f i p d args kwargs bound :
  kwargs !! "func" = None → kwargs !! "arg_name" = None →
  NoDup (param_names (tg_params f)) →
  tg_params f !! i = Some p → p_default p = Some d →
  (length args ≤ i)%nat → kwargs !! p_name p = None →
  p_kind p ≠ VAR_KEYWORD →
  sig_bind (tg_params f) args kwargs = inr bound →
  _get_arg_value f (p_name p) args kwargs = inr d.
Proof.
  intros Hfunc Hname Hnd Hp Hd Hlen Hkw Hkind Hbind.
  rewrite get_arg_value_plain, Hbind by done.
  rewrite apply_defaults_unbound, Hd; [done|done| |].
  - by eapply list_elem_of_lookup_2.
  - by eapply sig_bind_omitted.
Qed.

Lemma get_arg_value_default_witness :
  sig_bind (tg_params f_scale) [VInt 1] ∅ = inr {[ "x" := VInt 1 ]} ∧
  _get_arg_value f_scale "factor" [VInt 1] ∅ = inr (VInt 2).
Proof.
  split; [reflexivity|].
  refine (get_arg_value_default f_scale 1 (optional "factor" (VInt 2)) (VInt 2)
            [VInt 1] ∅ {[ "x" := VInt 1 ]} _ _ _ eq_refl eq_refl _ eq_refl _ eq_refl).
  - reflexivity.
  - reflexivity.
  - apply (bool_decide_unpack _). reflexivity.
  - simpl. lia.
  - discriminate.
Defined.

(** ** Calls with the locator None *)

(** With the locator None the target is called first.  If it raises, that
    exception leaves the wrapped function and the check is not called.  If it
    returns, the check is called once with that value as [df], a tuple
    included, and the value is returned exactly when the check returns;
    otherwise the exception of the check leaves the wrapped function. *)
Theorem none_locator_checks_result store self f args kwargs v fn :
  self_enabled self = inr v → truthy v = true → _df self = VNone →
  self_check_func store self = inr fn →
  let m := decorated store self f args kwargs in
  match tg_call f args kwargs with
  | Raise e => trace m = [Called Target args kwargs (Raise e)] ∧ result m = Raise e
  | Ret res =>
      let kw := <["df" := res]> (check_kwargs_of (inst_dict self)) in
      trace m = [Called Target args kwargs (Ret res);
                 Called Check [] kw (call_function fn [] kw)]
      ∧ result m = match call_function fn [] kw with
                   | Ret _ => Ret res
                   | Raise e => Raise e
                   end
  end.
Proof.
  intros Hen Htrue Hdf Hfn m. unfold m, decorated, call_check.
  rewrite Hen, Hdf, Hfn. run. rewrite Htrue; simpl.
  destruct (tg_call f args kwargs) as [res|e]; simpl; [|done].
  by destruct (call_function fn [] _).
Qed.

Lemma none_locator_witness_negative :
  let m := decorated ∅ non_negative_result f_required [VInt (-1)] ∅ in
  self_enabled non_negative_result = inr (VBool true) ∧
  _df non_negative_result = VNone ∧
  tg_call f_required [VInt (-1)] ∅ = Ret (VInt (-1)) ∧
  trace m = [Called Target [VInt (-1)] ∅ (Ret (VInt (-1)));
             Called Check [] {[ "df" := VInt (-1) ]} (Raise (AssertionError "negative"))] ∧
  result m = Raise (AssertionError "negative").
Proof.
  intros m. split; [reflexivity|]. split; [reflexivity|]. split; [reflexivity|].
  exact (none_locator_checks_result ∅ non_negative_result f_required [VInt (-1)] ∅
           (VBool true) non_negative eq_refl eq_refl eq_refl eq_refl).
Defined.

(** ** Calls with a string locator *)









(** ** Construction and configuration *)

Lemma zip_app_extra (names : list string) : ∀ args extra : list pyval,
  (length names ≤ length args)%nat →
  zip names (args ++ extra) = zip names args.
Proof.
  induction names as [|n names IH]; intros args extra Hlen; [done|].
  destruct args as [|a args]; simpl in *; [lia|].
  f_equal. apply IH. lia.
Qed.

(** Positional arguments beyond the positional parameters of the check (its
    first parameter not counted) are dropped without an error, by a
    generated decorator and by [CustomCheck] alike. *)
Theorem extra_positional_arguments_ignored store cls check args extra kwargs fn :
  (length (tail (getfullargspec_args (fn_params (cls_check_func cls))))
     ≤ length args)%nat →
  callable store check = Some fn →
  (length (tail (getfullargspec_args (fn_params fn))) ≤ length args)%nat →
  kwargs !! "check_func" = None →
  BaseDecorator_init cls (args ++ extra) kwargs = BaseDecorator_init cls args kwargs
  ∧ CustomCheck_init store (check :: args ++ extra) kwargs
    = CustomCheck_init store (check :: args) kwargs.
Proof.
  intros Hlen Hfn Hlen' Hkw. split.
  - unfold BaseDecorator_init. by rewrite zip_app_extra.
  - unfold CustomCheck_init, getfullargspec_of.
    rewrite lookup_delete_ne, Hkw by done. simpl. rewrite Hfn.
    by rewrite zip_app_extra.
Qed.

Lemma extra_positional_arguments_witness :
  callable check_store (VFunc 0) = Some non_negative ∧
  BaseDecorator_init NonNegative [VBool true; VInt 9; VStr "x"] ∅
    = BaseDecorator_init NonNegative [VBool true] ∅ ∧
  CustomCheck_init check_store [VFunc 0; VBool true; VInt 9; VStr "x"] ∅
    = CustomCheck_init check_store [VFunc 0; VBool true] ∅.
Proof.
  split; [reflexivity|].
  refine (extra_positional_arguments_ignored check_store NonNegative (VFunc 0)
            [VBool true] [VInt 9; VStr "x"] ∅ non_negative _ eq_refl _ eq_refl);
    simpl; lia.
Defined.

(** When [df] is the first positional parameter of the check, as the
    decorators assume, no positional argument of the construction can set
    the locator: it is the keyword [df], or None without that keyword. *)
Theorem locator_only_by_keyword cls args kwargs self :
  head (getfullargspec_args (fn_params (cls_check_func cls))) = Some "df" →
  NoDup (getfullargspec_args (fn_params (cls_check_func cls))) →
  BaseDecorator_init cls args kwargs = inr self →
  _df self = default VNone (kwargs !! "df").
Proof.
  intros Hhead Hnd (_ & Hdict & _)%init_inv.
  unfold _df. rewrite Hdict, init_dict_df. unfold configured_locator.
  destruct (kwargs !! "df"); [done|].
  rewrite filter_zip_absent; [done|].
  destruct (getfullargspec_args _) as [|n names]; [done|].
  injection Hhead as ->. by apply NoDup_cons in Hnd as [? _].
Qed.

Lemma locator_only_by_keyword_witness :
  BaseDecorator_init NonNegative [VStr "x"] ∅
    = inr {| inst_class := NonNegative;
             inst_dict := init_dict NonNegative [VStr "x"] ∅ |} ∧
  _df {| inst_class := NonNegative;
         inst_dict := init_dict NonNegative [VStr "x"] ∅ |} = VNone.
Proof.
  split; [reflexivity|].
  refine (locator_only_by_keyword NonNegative [VStr "x"] ∅ _ eq_refl _ eq_refl).
  apply (bool_decide_unpack _). reflexivity.
Defined.

(** Every call of the check made by a wrapped function has no positional
    argument and, as keywords, the forwarded entries with [df] set. *)
Lemma check_event_shape store self f args kwargs ev :
  ev ∈ trace (decorated store self f args kwargs) → ev_callee ev = Check →
  ev_args ev = [] ∧
  ∃ x, ev_kwargs ev = <["df" := x]> (check_kwargs_of (inst_dict self)).
Proof.
  unfold decorated, call_check, self_enabled. run.
  destruct (inst_dict self !! "enabled") as [v|]; simpl;
    [|by intros ?%elem_of_nil].
  destruct (negb (truthy v)); simpl;
    [intros [->|?%elem_of_nil]%elem_of_cons; done|].
  destruct (_df self); simpl; try (by intros ?%elem_of_nil).
  - destruct (tg_call f args kwargs) as [res|e0]; simpl;
      [|intros [->|?%elem_of_nil]%elem_of_cons; done].
    destruct (self_check_func store self) as [e1|fn]; simpl;
      [intros [->|?%elem_of_nil]%elem_of_cons; done|].
    destruct (call_function fn [] _); simpl;
      intros [->|[->|?%elem_of_nil]%elem_of_cons]%elem_of_cons; try done;
      intros _; eauto.
  - destruct (tg_call f args kwargs) as [res|e0]; simpl;
      [|intros [->|?%elem_of_nil]%elem_of_cons; done].
    destruct res; simpl; try (intros [->|?%elem_of_nil]%elem_of_cons; done).
    destruct (tuple_getitem items n) as [e1|x]; simpl;
      [intros [->|?%elem_of_nil]%elem_of_cons; done|].
    destruct (self_check_func store self) as [e1|fn]; simpl;
      [intros [->|?%elem_of_nil]%elem_of_cons; done|].
    destruct (call_function fn [] _); simpl;
      intros [->|[->|?%elem_of_nil]%elem_of_cons]%elem_of_cons; try done;
      intros _; eauto.
  - destruct (_get_arg_default f s); simpl; [by intros ?%elem_of_nil|].
    destruct (_get_arg_value f s args kwargs) as [e1|x]; simpl;
      [by intros ?%elem_of_nil|].
    destruct (_ || _); simpl.
    + destruct (self_check_func store self) as [e1|fn]; simpl;
        [by intros ?%elem_of_nil|].
      destruct (call_function fn [] _); simpl.
      * destruct (tg_call f args kwargs); simpl;
          intros [->|[->|?%elem_of_nil]%elem_of_cons]%elem_of_cons; try done;
          intros _; eauto.
      * intros [->|?%elem_of_nil]%elem_of_cons; [|done]. intros _; eauto.
    + destruct (tg_call f args kwargs); simpl;
        intros [->|?%elem_of_nil]%elem_of_cons; done.
Qed.

(** What is given at construction reaches the check: in every call of the
    check, a keyword of the construction other than [df], [enabled],
    [params] and [check_func] is passed under its own name, and a positional
    argument under the name of the check's positional parameter of the same
    position, the first not counted, unless a keyword of that name was
    given. *)
Theorem configuration_reaches_check
    store cls args kwargs self f cargs ckwargs ev k x :
  BaseDecorator_init cls args kwargs = inr self →
  NoDup (getfullargspec_args (fn_params (cls_check_func cls))) →
  k ∉ ["df"; "enabled"; "params"; "check_func"] →
  (kwargs !! k = Some x ∨
   (kwargs !! k = None ∧ ∃ i,
      tail (getfullargspec_args (fn_params (cls_check_func cls))) !! i = Some k
      ∧ args !! i = Some x)) →
  ev ∈ trace (decorated store self f cargs ckwargs) → ev_callee ev = Check →
  ev_kwargs ev !! k = Some x.
Proof.
  intros (_ & Hdict & _)%init_inv Hnd Hk Hgiven Hin Hcheck.
  rewrite !not_elem_of_cons in Hk. destruct Hk as (Hdf & Hen & Hpa & Hcf & _).
  destruct (check_event_shape _ _ _ _ _ _ Hin Hcheck) as (_ & y & ->).
  rewrite lookup_insert_ne by done. rewrite check_kwargs_of_lookup.
  rewrite decide_False
    by (rewrite !elem_of_cons, elem_of_nil; intros [?|[?|[?|[]]]]; done).
  rewrite Hdict. unfold init_dict. rewrite !update_lookup.
  rewrite lookup_delete_ne by done.
  destruct Hgiven as [->|[-> (i & Hname & Harg)]]; [done|].
  rewrite (dict_of_zip_lookup _ args i k x); [done| |done|done].
  destruct (getfullargspec_args _); [done|]. by apply NoDup_cons in Hnd as [_ ?].
Qed.

Lemma configuration_reaches_check_witness :
  let self := {| inst_class := NonNegative;
                 inst_dict := init_dict NonNegative [VBool true] ∅ |} in
  let ev := Called Check [] {[ "strict" := VBool true; "df" := VInt 0 ]}
              (Raise (AssertionError "negative")) in
  BaseDecorator_init NonNegative [VBool true] ∅ = inr self ∧
  ev ∈ trace (decorated ∅ self f_required [VInt 0] ∅) ∧
  ev_kwargs ev !! "strict" = Some (VBool true).
Proof.
  intros self ev.
  assert (Hin : ev ∈ trace (decorated ∅ self f_required [VInt 0] ∅))
    by apply list_elem_of_further, list_elem_of_here.
  split; [reflexivity|]. split; [exact Hin|].
  refine (configuration_reaches_check ∅ NonNegative [VBool true] ∅ self f_required
            [VInt 0] ∅ ev "strict" (VBool true) eq_refl _ _ _ Hin eq_refl).
  - apply (bool_decide_unpack _). reflexivity.
  - apply (bool_decide_unpack _). reflexivity.
  - right. split; [reflexivity|]. by exists 0%nat.
Defined.

(** A decorator constructed with a false [enabled] keyword is transparent:
    applied to any function, the wrapped function is one call of that
    function.  Without the keyword the decorator is enabled.  (The check is
    assumed not to have a positional parameter that is itself named
    [enabled] and is given positionally.) *)
Theorem constructed_disabled_is_transparent
    store cls args kwargs self f wrapped cargs ckwargs :
  BaseDecorator_init cls args kwargs = inr self →
  "enabled" ∉ (zip (tail (getfullargspec_args (fn_params (cls_check_func cls))))
                   args).*1 →
  BaseDecorator_call store self f = inr wrapped →
  self_enabled self = inr (default (VBool true) (kwargs !! "enabled"))
  ∧ (truthy (default (VBool true) (kwargs !! "enabled")) = false →
     wrapped cargs ckwargs =
       ([Called Target cargs ckwargs (tg_call f cargs ckwargs)],
        tg_call f cargs ckwargs)).
Proof.
  intros Hinit Hpos Hwrap.
  pose proof (init_enabled _ _ _ _ Hinit Hpos) as Hen. split; [done|].
  intros Hfalse.
  assert (wrapped = decorated store self f) as ->.
  { revert Hwrap. unfold BaseDecorator_call.
    destruct (_df self); try (by intros [= <-]).
    destruct (negb _); [done|]. by intros [= <-]. }
  unfold decorated. rewrite Hen. run. by rewrite Hfalse.
Qed.

Lemma constructed_disabled_witness :
  BaseDecorator_init AlwaysRaises [] {[ "enabled" := VInt 0 ]}
    = inr {| inst_class := AlwaysRaises;
             inst_dict := init_dict AlwaysRaises [] {[ "enabled" := VInt 0 ]} |} ∧
  decorated ∅ {| inst_class := AlwaysRaises;
                 inst_dict := init_dict AlwaysRaises [] {[ "enabled" := VInt 0 ]} |}
    f_required [VInt 5] ∅
    = ([Called Target [VInt 5] ∅ (Ret (VInt 5))], Ret (VInt 5)).
Proof.
  split; [reflexivity|].
  refine (proj2 (constructed_disabled_is_transparent ∅ AlwaysRaises []
                   {[ "enabled" := VInt 0 ]} _ f_required _ [VInt 5] ∅
                   eq_refl _ eq_refl) eq_refl).
  by intros ?%elem_of_nil.
Defined.

(** ** CustomCheck *)


(** With the check given as first positional argument and no keyword
    [check_func], the forwarded mapping holds each further positional
    argument under the check's positional parameter of the same position,
    the first not counted, unless a keyword of that name is given; each
    keyword other than [enabled] under its own name; and nothing else. *)
Theorem CustomCheck_positional_configuration
    store check fn args kwargs self :
  callable store check = Some fn →
  NoDup (getfullargspec_args (fn_params fn)) →
  kwargs !! "check_func" = None →
  CustomCheck_init store (check :: args) kwargs = inr self →
  cc_check_func self = check
  ∧ (∀ k x, k ≠ "enabled" → kwargs !! k = Some x →
       cc_check_func_params self !! k = Some x)
  ∧ (∀ i k x, tail (getfullargspec_args (fn_params fn)) !! i = Some k →
       args !! i = Some x → kwargs !! k = None →
       cc_check_func_params self !! k = Some x)
  ∧ (∀ k, is_Some (cc_check_func_params self !! k) →
       (k ≠ "enabled" ∧ is_Some (kwargs !! k)) ∨
       k ∈ take (length args) (tail (getfullargspec_args (fn_params fn)))).
Proof.
  intros Hfn Hnd Hkw. unfold CustomCheck_init, getfullargspec_of.
  rewrite lookup_delete_ne, Hkw by done. simpl. rewrite Hfn.
  intros [= <-]. simpl.
  assert (Hnd' : NoDup (tail (getfullargspec_args (fn_params fn)))).
  { destruct (getfullargspec_args _); [done|]. by apply NoDup_cons in Hnd as [_ ?]. }
  split_and!; [done|..].
  - intros k x Hk Hx. by rewrite update_lookup, lookup_delete_ne, Hx.
  - intros i k x Hname Harg Hnone. rewrite update_lookup.
    assert (delete "enabled" kwargs !! k = None) as ->.
    { apply lookup_delete_None. by right. }
    by apply (dict_of_zip_lookup _ args i).
  - intros k. rewrite update_lookup.
    destruct (delete "enabled" kwargs !! k) as [x|] eqn:Hd.
    + intros _. left. apply lookup_delete_Some in Hd as [? Hd].
      split; [done|by eexists].
    + rewrite dict_of_lookup. intros [y Hy]. right.
      destruct (last _) as [[k' x]|] eqn:Hlast; [|done].
      apply last_Some_elem_of, list_elem_of_filter in Hlast as [Hk Hin].
      simpl in Hk. subst k'.
      apply list_elem_of_lookup in Hin as [i Hi].
      apply lookup_zip_with_Some in Hi as (n & a & [= <- <-] & Hn & Ha).
      apply list_elem_of_lookup. exists i.
      rewrite lookup_take_lt; [done|]. by eapply lookup_lt_Some.
Qed.

Lemma CustomCheck_positional_witness :
  callable check_store (VFunc 0) = Some non_negative ∧
  ∃ self,
    CustomCheck_init check_store [VFunc 0; VBool true] ∅ = inr self ∧
    cc_check_func self = VFunc 0 ∧
    cc_check_func_params self !! "strict" = Some (VBool true) ∧
    cc_check_func_params self !! "check_func" = None.
Proof.
  assert (Hnd : NoDup (getfullargspec_args (fn_params non_negative))).
  { apply (bool_decide_unpack _). reflexivity. }
  split; [reflexivity|]. eexists. split; [reflexivity|].
  edestruct (CustomCheck_positional_configuration check_store (VFunc 0) non_negative
               [VBool true] ∅) as (Hcf & _ & Hpos & _);
    [reflexivity|exact Hnd|reflexivity|reflexivity|].
  split; [exact Hcf|]. split; [|reflexivity].
  by apply (Hpos 0%nat).
Defined.

(** The wrapped function of an enabled [CustomCheck] calls the target first.
    If the target raises, that exception leaves the wrapped function and
    [custom_check] is not called.  If it returns, [custom_check] is called
    once with that value and the check as positional arguments and the
    forwarded mapping as keywords; the value is returned exactly when
    [custom_check] returns, whatever it returns. *)
Theorem custom_check_call custom_check self f args kwargs :
  truthy (cc_enabled self) = true →
  let m := CustomCheck_call custom_check self f args kwargs in
  match tg_call f args kwargs with
  | Raise e => m = ([Called Target args kwargs (Raise e)], Raise e)
  | Ret df =>
      let r := custom_check [df; cc_check_func self] (cc_check_func_params self) in
      trace m = [Called Target args kwargs (Ret df);
                 Called Check [df; cc_check_func self] (cc_check_func_params self) r]
      ∧ result m = match r with Ret _ => Ret df | Raise e => Raise e end
  end.
Proof.
  intros Htrue m. unfold m, CustomCheck_call, CustomCheck_decorated, call_custom_check.
  rewrite Htrue. run.
  destruct (tg_call f args kwargs) as [df|e]; simpl; [|done].
  by destruct (custom_check _ _).
Qed.

Lemma custom_check_call_witness :
  let self := {| cc_enabled := VBool true; cc_check_func := VFunc 0;
                 cc_check_func_params := {[ "strict" := VBool true ]} |} in
  let reject : list pyval → gmap string pyval → outcome pyval :=
    λ _ _, Raise (AssertionError "rejected") in
  truthy (cc_enabled self) = true ∧
  tg_call f_required [VInt 5] ∅ = Ret (VInt 5) ∧
  result (CustomCheck_call reject self f_required [VInt 5] ∅)
    = Raise (AssertionError "rejected").
Proof.
  intros self reject. split; [reflexivity|]. split; [reflexivity|].
  exact (proj2 (custom_check_call reject self f_required [VInt 5] ∅ eq_refl)).
Defined.

(** ** The registry *)

(** The functions the loop registers are exactly the values of the library's
    members that are function objects whose [__module__] is
    [bulwark.checks]; members that are not functions, and functions the
    library only imports, are left out. *)
Theorem check_functions_are_owned_functions store members func :
  func ∈ check_functions store members ↔
  ∃ name ref, (name, VFunc ref) ∈ members ∧ store !! ref = Some func
              ∧ fn_module func = "bulwark.checks".
Proof.
  unfold check_functions. rewrite list_elem_of_omap. split.
  - intros ([name v] & Hin & Hsome). simpl in Hsome.
    destruct v; simpl in Hsome; try done.
    destruct (store !! ref) as [fn|] eqn:Hfn; [|done].
    case_decide; [|done]. injection Hsome as ->. by exists name, ref.
  - intros (name & ref & Hin & Hfn & Hmod).
    exists (name, VFunc ref). split; [done|]. simpl. rewrite Hfn.
    by rewrite decide_True.
Qed.

Lemma foldl_register_last snake_to_camel name : ∀ funcs globals,
  name ∉ ["func"; "decorator_name"] →
  foldl (register snake_to_camel) globals funcs !! name =
    match last (filter (λ g, snake_to_camel (fn_name g) = name) funcs) with
    | Some g => Some (DecoratorClass (decorator_factory name g))
    | None => globals !! name
    end.
Proof.
  intros funcs globals Hname. rewrite !not_elem_of_cons in Hname.
  destruct Hname as (Hf & Hd & _).
  revert globals. induction funcs as [|g funcs IH]; intros globals; simpl; [done|].
  rewrite IH, filter_cons. unfold register.
  destruct (decide (snake_to_camel (fn_name g) = name)) as [Heq|Hne].
  - rewrite last_cons. destruct (last (filter _ funcs)); [done|].
    by rewrite Heq, lookup_insert_eq.
  - destruct (last (filter _ funcs)); [done|].
    by rewrite !lookup_insert_ne.
Qed.

(** After the module has run, the name [CustomCheck] is the hand-written
    class.  Any other name, the loop variables apart, is bound to the
    decorator class of the last registered check whose camel-case name it is
    (a later check silently replaces an earlier one of the same name), and
    is left as it was when no check has that name. *)
Theorem registry_last_registration_wins
    store snake_to_camel members globals name :
  name ∉ ["func"; "decorator_name"] →
  module_body store snake_to_camel members globals !! name =
    if decide (name = "CustomCheck") then Some CustomCheckClass
    else
      match last (filter (λ g, snake_to_camel (fn_name g) = name)
                    (check_functions store members)) with
      | Some g => Some (DecoratorClass (decorator_factory name g))
      | None => globals !! name
      end.
Proof.
  intros Hname. unfold module_body. case_decide as Hcc.
  - subst name. apply lookup_insert_eq.
  - rewrite lookup_insert_ne by done. by apply foldl_register_last.
Qed.

Lemma registry_witness_library :
  module_body library_store snake_to_camel_spec library_members ∅ !! "NonNegative"
    = Some (DecoratorClass (decorator_factory "NonNegative" non_negative)) ∧
  module_body library_store snake_to_camel_spec library_members ∅ !! "SnakeToCamel"
    = None.
Proof.
  split.
  - refine (registry_last_registration_wins library_store snake_to_camel_spec
              library_members ∅ "NonNegative" _).
    apply (bool_decide_unpack _). reflexivity.
  - refine (registry_last_registration_wins library_store snake_to_camel_spec
              library_members ∅ "SnakeToCamel" _).
    apply (bool_decide_unpack _). reflexivity.
Defined.
